(** * Tempwallets backend: Yellow Network transport, channel controller and
    the send path of the wallet service.

    Shallow embedding of
    - [WebSocketManager] and [ChannelService]
      (apps/backend/src/services/yellow-network/websocket-manager.ts),
    - [WalletService.sendCrypto]: [toSmallest], the balance pre-check and
      the ERC-20 transfer dispatch
      (apps/backend/src/wallet/aptos/PHASE5_COMPLETE.md). *)

From Stdlib Require Import ZArith Lia String Ascii Sorted QArith.
From stdpp Require Import base gmap list.

Open Scope Z_scope.

(* ========================================================================= *)
(** * WebSocketManager *)
(* ========================================================================= *)

Module WS.

(** [ConnectionState] of types.ts. *)
Inductive ConnectionState :=
  DISCONNECTED | CONNECTING | CONNECTED | RECONNECTING | FAILED.

(** [WebSocket.readyState] of the underlying socket. *)
Inductive ReadyState := WS_CONNECTING | WS_OPEN | WS_CLOSING | WS_CLOSED.

(** An RPC request [{ req: [id, method, params, ts], sig }]: the fields the
    transport reads are the id ([request.req[0]]) and the method. *)
Record RPCRequest := mkRequest { req_id : Z; req_method : string }.

(** An RPC response [{ res: [id, method, payload, ts], error? }]; [res_error]
    is [Some m] when an [error] is present, [m] being its [message] ([""]
    when that is absent or empty). *)
Record RPCResponse := mkResponse {
  res_id : Z; res_method : string; res_error : option string }.

(** Why a caller's promise is rejected. *)
Inductive RpcError :=
| ErrRpc (msg : string)          (* response.error.message || 'RPC error' *)
| ErrTimeout (requestId : Z)     (* `Request ${requestId} timed out ...` *)
| ErrWrite.                      (* ws.send threw on an in-flight message *)

(** Observable effects: socket writes, hook calls and promise settlements. *)
Inductive Output :=
| OWrite (r : RPCRequest)             (* this.ws.send(JSON.stringify(r)) *)
| OWriteFailed (r : RPCRequest)       (* ws.send threw in flushMessageQueue *)
| OCloseSocket (code : Z)             (* this.ws.close(code, ...) *)
| OTerminate                          (* this.ws.terminate() *)
| OOnConnect                          (* eventHandlers.onConnect() *)
| OOnDisconnect                       (* eventHandlers.onDisconnect() *)
| OOnMessage (resp : RPCResponse)     (* eventHandlers.onMessage(resp) *)
| OResolve (requestId : Z) (resp : RPCResponse)
| OReject (requestId : Z) (e : RpcError)
| ONotification (method : string)     (* handleNotification(resp) *)
| OConnectResolved                    (* connect() promise resolves *)
| OConnectRejected                    (* connect() promise rejects *)
| OReturnId (n : Z).                  (* getNextRequestId() returns n *)

(** Which of the optional [eventHandlers] are registered. *)
Record Hooks := mkHooks { onConnect : bool; onDisconnect : bool; onMessage : bool }.

(** Constructor configuration ([WebSocketConfig] with its defaults). *)
Record Config := mkConfig {
  maxReconnectAttempts : Z; reconnectDelay : Z;
  maxReconnectDelay : Z; requestTimeout : Z }.

(** The fields of a [WebSocketManager] instance.  A response handler is the
    closure installed by [send]; the only thing it captures besides the
    caller's promise is its timeout timer, so it is represented by that
    timer's handle.  [timers] maps live timeout timers to the request id
    they guard; [nextTimer] hands out fresh handles. *)
Record WSM := mkWSM {
  cfg : Config;
  connectionState : ConnectionState;
  ws : option ReadyState;                 (* null or the socket *)
  reconnectAttempts : Z;
  messageQueue : list RPCRequest;
  responseHandlers : gmap Z Z;            (* request id -> timer handle *)
  timers : gmap Z Z;                      (* timer handle -> request id *)
  nextTimer : Z;
  requestIdCounter : Z;
  reconnectTimer : option Z;              (* scheduled delay, if any *)
  eventHandlers : Hooks }.

(** [new WebSocketManager(config)]. *)
Definition init (c : Config) : WSM :=
  mkWSM c DISCONNECTED None 0 [] ∅ ∅ 0 1 None (mkHooks false false false).

Definition defaultConfig : Config := mkConfig 5 1000 30000 30000.

(** Field updates. *)
Definition set_connectionState (x : ConnectionState) (s : WSM) : WSM :=
  mkWSM (cfg s) x (ws s) (reconnectAttempts s) (messageQueue s)
    (responseHandlers s) (timers s) (nextTimer s) (requestIdCounter s)
    (reconnectTimer s) (eventHandlers s).
Definition set_ws (x : option ReadyState) (s : WSM) : WSM :=
  mkWSM (cfg s) (connectionState s) x (reconnectAttempts s) (messageQueue s)
    (responseHandlers s) (timers s) (nextTimer s) (requestIdCounter s)
    (reconnectTimer s) (eventHandlers s).
Definition set_reconnectAttempts (x : Z) (s : WSM) : WSM :=
  mkWSM (cfg s) (connectionState s) (ws s) x (messageQueue s)
    (responseHandlers s) (timers s) (nextTimer s) (requestIdCounter s)
    (reconnectTimer s) (eventHandlers s).
Definition set_messageQueue (x : list RPCRequest) (s : WSM) : WSM :=
  mkWSM (cfg s) (connectionState s) (ws s) (reconnectAttempts s) x
    (responseHandlers s) (timers s) (nextTimer s) (requestIdCounter s)
    (reconnectTimer s) (eventHandlers s).
Definition set_responseHandlers (x : gmap Z Z) (s : WSM) : WSM :=
  mkWSM (cfg s) (connectionState s) (ws s) (reconnectAttempts s)
    (messageQueue s) x (timers s) (nextTimer s) (requestIdCounter s)
    (reconnectTimer s) (eventHandlers s).
Definition set_timers (x : gmap Z Z) (s : WSM) : WSM :=
  mkWSM (cfg s) (connectionState s) (ws s) (reconnectAttempts s)
    (messageQueue s) (responseHandlers s) x (nextTimer s) (requestIdCounter s)
    (reconnectTimer s) (eventHandlers s).
Definition set_nextTimer (x : Z) (s : WSM) : WSM :=
  mkWSM (cfg s) (connectionState s) (ws s) (reconnectAttempts s)
    (messageQueue s) (responseHandlers s) (timers s) x (requestIdCounter s)
    (reconnectTimer s) (eventHandlers s).
Definition set_requestIdCounter (x : Z) (s : WSM) : WSM :=
  mkWSM (cfg s) (connectionState s) (ws s) (reconnectAttempts s)
    (messageQueue s) (responseHandlers s) (timers s) (nextTimer s) x
    (reconnectTimer s) (eventHandlers s).
Definition set_reconnectTimer (x : option Z) (s : WSM) : WSM :=
  mkWSM (cfg s) (connectionState s) (ws s) (reconnectAttempts s)
    (messageQueue s) (responseHandlers s) (timers s) (nextTimer s)
    (requestIdCounter s) x (eventHandlers s).
Definition set_eventHandlers (x : Hooks) (s : WSM) : WSM :=
  mkWSM (cfg s) (connectionState s) (ws s) (reconnectAttempts s)
    (messageQueue s) (responseHandlers s) (timers s) (nextTimer s)
    (requestIdCounter s) (reconnectTimer s) x.

(** ** The method bodies run in a state monad that also records outputs. *)

Record M (A : Type) : Type := MkM { runM : WSM -> A * WSM * list Output }.
Arguments MkM {A} _.
Arguments runM {A} _ _.

Global Instance M_ret : MRet M := fun A a => MkM (fun s => (a, s, [])).
Global Instance M_bind : MBind M := fun A B f m => MkM (fun s =>
  let '(a, s1, o1) := runM m s in
  let '(b, s2, o2) := runM (f a) s1 in
  (b, s2, o1 ++ o2)).

Definition gets {A} (f : WSM -> A) : M A := MkM (fun s => (f s, s, [])).
Definition modify (f : WSM -> WSM) : M unit := MkM (fun s => (tt, f s, [])).
Definition emit (o : Output) : M unit := MkM (fun s => (tt, s, [o])).
Definition emits (o : list Output) : M unit := MkM (fun s => (tt, s, o)).
Definition when (b : bool) (m : M unit) : M unit := if b then m else mret tt.

Definition CState_eqb (a b : ConnectionState) : bool :=
  match a, b with
  | DISCONNECTED, DISCONNECTED | CONNECTING, CONNECTING
  | CONNECTED, CONNECTED | RECONNECTING, RECONNECTING | FAILED, FAILED => true
  | _, _ => false
  end.

Definition is_open (w : option ReadyState) : bool :=
  match w with Some WS_OPEN => true | _ => false end.

Section Transport.

(** Whether [ws.send] succeeds (does not throw) on a given request. *)
Variable ws_send_ok : RPCRequest -> bool.

(** [isConnected()] *)
Definition isConnected : M bool :=
  gets (fun s => CState_eqb (connectionState s) CONNECTED && is_open (ws s)).

(** The [while] loop of [flushMessageQueue]: [shift], write, and on a
    throwing write [unshift] the request back and [break].  [isConnected()]
    cannot change inside the synchronous loop.  Returns the remaining queue. *)
Fixpoint flush_loop (q : list RPCRequest) : list RPCRequest * list Output :=
  match q with
  | [] => ([], [])
  | r :: rest =>
      if ws_send_ok r
      then let '(q', o) := flush_loop rest in (q', OWrite r :: o)
      else (r :: rest, [OWriteFailed r])
  end.

(** [flushMessageQueue()] *)
Definition flushMessageQueue : M unit :=
  c ← isConnected;
  q ← gets messageQueue;
  match c, q with
  | true, _ :: _ =>
      let '(q', o) := flush_loop q in
      modify (set_messageQueue q') ;; emits o
  | _, _ => mret tt
  end.

(** [connect()] up to the creation of the socket; the socket's events are
    delivered by [step] below. *)
Definition connect : M unit :=
  st ← gets connectionState;
  if CState_eqb st CONNECTED then emit OConnectResolved
  else modify (set_connectionState CONNECTING) ;;
       modify (set_ws (Some WS_CONNECTING)).

(** [connect()] when [new WebSocket(this.url)] throws: the [catch] sets
    FAILED and rejects; [this.ws] keeps its old value, since the assignment
    is not reached. *)
Definition connect_throws : M unit :=
  st ← gets connectionState;
  if CState_eqb st CONNECTED then emit OConnectResolved
  else modify (set_connectionState CONNECTING) ;;
       modify (set_connectionState FAILED) ;;
       emit OConnectRejected.

(** [scheduleReconnect()] *)
Definition scheduleReconnect : M unit :=
  t ← gets reconnectTimer;
  match t with
  | Some _ => mret tt                              (* Already scheduled *)
  | None =>
      a ← gets reconnectAttempts;
      c ← gets cfg;
      let a' := a + 1 in
      let delay := Z.min (reconnectDelay c * 2 ^ (a' - 1)) (maxReconnectDelay c) in
      modify (set_reconnectAttempts a') ;;
      modify (set_connectionState RECONNECTING) ;;
      modify (set_reconnectTimer (Some delay))
  end.

(** The [ws.on('open')] handler. *)
Definition on_open : M unit :=
  modify (fun s => set_ws (match ws s with Some _ => Some WS_OPEN | None => None end) s) ;;
  modify (set_connectionState CONNECTED) ;;
  modify (set_reconnectAttempts 0) ;;
  flushMessageQueue ;;
  h ← gets eventHandlers;
  when (onConnect h) (emit OOnConnect) ;;
  emit OConnectResolved.

(** The [ws.on('close')] handler. *)
Definition on_close (code : Z) : M unit :=
  modify (set_connectionState DISCONNECTED) ;;
  modify (set_ws None) ;;
  h ← gets eventHandlers;
  when (onDisconnect h) (emit OOnDisconnect) ;;
  a ← gets reconnectAttempts;
  c ← gets cfg;
  if negb (code =? 1000) && (a <? maxReconnectAttempts c) then scheduleReconnect
  else when (maxReconnectAttempts c <=? a) (modify (set_connectionState FAILED)).

(** The connection timeout set by [connect()]. *)
Definition on_connect_timeout : M unit :=
  st ← gets connectionState;
  when (CState_eqb st CONNECTING) (emit OTerminate ;; emit OConnectRejected).

(** [disconnect()] *)
Definition disconnect : M unit :=
  modify (set_reconnectTimer None) ;;
  w ← gets ws;
  match w with
  | Some _ => emit (OCloseSocket 1000) ;; modify (set_ws None)
  | None => mret tt
  end ;;
  modify (set_connectionState DISCONNECTED).

(** [send(request)]: install the handler and its timeout, then write or
    queue. *)
Definition send (r : RPCRequest) : M unit :=
  let requestId := req_id r in
  h ← gets nextTimer;
  modify (set_nextTimer (h + 1)) ;;
  modify (fun s => set_timers (<[h := requestId]> (timers s)) s) ;;
  modify (fun s => set_responseHandlers (<[requestId := h]> (responseHandlers s)) s) ;;
  w ← gets ws;
  if is_open w then
    (if ws_send_ok r then emit (OWrite r)
     else modify (fun s => set_responseHandlers (delete requestId (responseHandlers s)) s) ;;
          modify (fun s => set_timers (delete h (timers s)) s) ;;
          emit (OReject requestId ErrWrite))
  else modify (fun s => set_messageQueue (messageQueue s ++ [r]) s).

(** The timeout callback of [send], for timer [h]. *)
Definition on_request_timeout (h : Z) : M unit :=
  t ← gets timers;
  match t !! h with
  | Some requestId =>
      modify (fun s => set_timers (delete h (timers s)) s) ;;
      modify (fun s => set_responseHandlers (delete requestId (responseHandlers s)) s) ;;
      emit (OReject requestId (ErrTimeout requestId))
  | None => mret tt
  end.

(** [n + 1] on a JavaScript number [n]: exact below [2^53]; at [2^53] the
    sum [2^53 + 1] is not representable and rounds (to even) back to
    [2^53].  The id counter starts at 1 and only moves by this step, so it
    stays within [[1, 2^53]], where this is the IEEE double sum. *)
Definition js_succ (n : Z) : Z := if n <? 2 ^ 53 then n + 1 else n.

(** [getNextRequestId()]: [return this.requestIdCounter++]. *)
Definition getNextRequestId : M Z :=
  n ← gets requestIdCounter;
  modify (set_requestIdCounter (js_succ n)) ;;
  mret n.

(** [handleMessage(response)] *)
Definition handleMessage (resp : RPCResponse) : M unit :=
  let requestId := res_id resp in
  hk ← gets eventHandlers;
  when (onMessage hk) (emit (OOnMessage resp)) ;;
  hs ← gets responseHandlers;
  match hs !! requestId with
  | Some h =>
      (* the handler: clearTimeout, then reject or resolve *)
      modify (fun s => set_timers (delete h (timers s)) s) ;;
      match res_error resp with
      | Some m => emit (OReject requestId
                    (ErrRpc (if String.eqb m "" then "RPC error" else m)))
      | None => emit (OResolve requestId resp)
      end ;;
      modify (fun s => set_responseHandlers (delete requestId (responseHandlers s)) s)
  | None => emit (ONotification (res_method resp))
  end.

(** Everything that can happen to a manager: calls of its public methods
    and the callbacks of its socket and timers. *)
Inductive Event :=
| Connect | Disconnect | Send (r : RPCRequest) | NextRequestId
| RegisterHooks (h : Hooks)
| SockOpen | SockMessage (resp : RPCResponse) | SockClose (code : Z)
| ConnectTimeout | RequestTimeout (timer : Z) | ReconnectTimerFires
| ConnectThrows                  (* connect() with new WebSocket(url) throwing *)
| ReconnectTimerFiresThrows.     (* the reconnect timer, its connect() throwing *)

Definition step (e : Event) : M unit :=
  match e with
  | Connect => connect
  | Disconnect => disconnect
  | Send r => send r
  | NextRequestId => n ← getNextRequestId; emit (OReturnId n)
  | RegisterHooks h => modify (set_eventHandlers h)
  | SockOpen => on_open
  | SockMessage resp => handleMessage resp
  | SockClose code => on_close code
  | ConnectTimeout => on_connect_timeout
  | RequestTimeout h => on_request_timeout h
  | ReconnectTimerFires =>
      t ← gets reconnectTimer;
      match t with
      | Some _ => modify (set_reconnectTimer None) ;; connect
      | None => mret tt
      end
  | ConnectThrows => connect_throws
  | ReconnectTimerFiresThrows =>
      t ← gets reconnectTimer;
      match t with
      | Some _ => modify (set_reconnectTimer None) ;; connect_throws
      | None => mret tt
      end
  end.

Fixpoint run (evs : list Event) : M unit :=
  match evs with
  | [] => mret tt
  | e :: rest => step e ;; run rest
  end.

Definition final (evs : list Event) (s : WSM) : WSM := snd (fst (runM (run evs) s)).
Definition outputs (evs : list Event) (s : WSM) : list Output := snd (runM (run evs) s).

End Transport.

(* ------------------------------------------------------------------------- *)
(** ** Observations on traces *)
(* ------------------------------------------------------------------------- *)

(** The ids returned by [getNextRequestId] in an output trace. *)
Definition returned_ids (o : list Output) : list Z :=
  omap (fun x => match x with OReturnId n => Some n | _ => None end) o.

(** [start, start+1, ..., start+n-1] *)
Fixpoint zseq (start : Z) (n : nat) : list Z :=
  match n with O => [] | S n' => start :: zseq (start + 1) n' end.

(** The ids returned by [n] successive [getNextRequestId] calls from the
    counter value [start]. *)
Fixpoint js_ids (start : Z) (n : nat) : list Z :=
  match n with O => [] | S n' => start :: js_ids (js_succ start) n' end.

Definition is_next_id (e : Event) : bool :=
  match e with NextRequestId => true | _ => false end.

(** Whether, in a trace, the on-connect hook is called before any socket
    write. *)
Fixpoint hook_before_first_write (o : list Output) : bool :=
  match o with
  | [] => true
  | OOnConnect :: _ => true
  | OWrite _ :: _ => false
  | _ :: rest => hook_before_first_write rest
  end.

(** Number of [getNextRequestId] calls in a run. *)
Fixpoint count_next_ids (evs : list Event) : nat :=
  match evs with
  | [] => O
  | e :: rest => (if is_next_id e then 1 else 0) + count_next_ids rest
  end%nat.

(** A computation that neither returns a request id nor moves the id
    counter. *)
Definition neutral {A} (m : M A) : Prop :=
  forall s, returned_ids (runM m s).2 = [] /\
            requestIdCounter (runM m s).1.2 = requestIdCounter s.

(** Concrete inputs: every hook registered, every socket write succeeding,
    one ledger query. *)
Definition hooks_all : Hooks := mkHooks true true true.
Definition writes_ok (_ : RPCRequest) : bool := true.
Definition ledger_req : RPCRequest := mkRequest 1 "get_ledger_balances".

(** Open, then one failed connection per attempt of the default budget. *)
Definition exhaust_budget : list Event :=
  [Connect; SockClose 1006;
   ReconnectTimerFires; SockClose 1006; ReconnectTimerFires; SockClose 1006;
   ReconnectTimerFires; SockClose 1006; ReconnectTimerFires; SockClose 1006;
   ReconnectTimerFires; SockClose 1006].


(** Every pending response handler has its live timeout timer, and every
    live timer handle was handed out before. *)
Definition tracked (s : WSM) : Prop :=
  (forall id h, responseHandlers s !! id = Some h -> timers s !! h = Some id) /\
  (forall h id, timers s !! h = Some id -> h < nextTimer s).
(** Whether an output settles the caller of request [id]. *)
Definition settles (id : Z) (o : Output) : bool :=
  match o with OResolve i _ | OReject i _ => i =? id | _ => false end.

(** How many callers of request [id] a trace settles. *)
Definition settlements (id : Z) (o : list Output) : nat :=
  length (List.filter (settles id) o).

(** How many [send] calls with id [id] a run makes. *)
Definition sends_of (id : Z) (evs : list Event) : nat :=
  length (List.filter (fun e => match e with Send r => req_id r =? id | _ => false end) evs).

(** How many live timeout timers guard request [id]. *)
Definition live_timers (id : Z) (s : WSM) : nat :=
  size (filter (fun kv : Z * Z => kv.2 = id) (timers s)).

(** The requests written to the socket in a trace. *)
Definition written (o : list Output) : list RPCRequest :=
  omap (fun x => match x with OWrite r => Some r | _ => None end) o.

(** The log line of a flush that stopped on a throwing write: the request
    put back at the head of the queue. *)
Definition write_failure (q : list RPCRequest) : list Output :=
  match q with [] => [] | r :: _ => [OWriteFailed r] end.

(** The requests passed to [send] in a run. *)
Definition sent (evs : list Event) : list RPCRequest :=
  omap (fun e => match e with Send r => Some r | _ => None end) evs.

End WS.

(* ========================================================================= *)
(** * sendCrypto: [toSmallest] *)
(* ========================================================================= *)

Module Amount.

(** JavaScript strings restricted to the characters these code paths see. *)
Definition jstring := list ascii.

Definition char_0 : ascii := "0"%char.
Definition char_dot : ascii := "."%char.

(** Characters removed by [String.prototype.trim] (its Latin-1 part). *)
Definition is_js_space (c : ascii) : bool :=
  match nat_of_ascii c with
  | 9 | 10 | 11 | 12 | 13 | 32 | 160 => true
  | _ => false
  end%nat.

Fixpoint drop_while (p : ascii -> bool) (l : jstring) : jstring :=
  match l with
  | [] => []
  | c :: rest => if p c then drop_while p rest else l
  end.

(** [s.trim()] *)
Definition trim (s : jstring) : jstring :=
  rev (drop_while is_js_space (rev (drop_while is_js_space s))).

(** [s.split(sep)] for a one-character separator: always at least one
    piece. *)
Fixpoint split (sep : ascii) (s : jstring) : list jstring :=
  match s with
  | [] => [[]]
  | c :: rest =>
      if Ascii.eqb c sep then [] :: split sep rest
      else match split sep rest with
           | piece :: pieces => (c :: piece) :: pieces
           | [] => [[c]]
           end
  end.

(** [s.replace(/^0+/, '')] *)
Definition strip_leading_zeros (s : jstring) : jstring :=
  drop_while (fun c => Ascii.eqb c char_0) s.

(** [s || '0'] on a string: the empty string is falsy. *)
Definition or_zero (s : jstring) : jstring :=
  match s with [] => [char_0] | _ => s end.

(** [toSmallest(val, decimals)] of [sendCrypto]:
<<
    const [wholeRaw, fracRaw] = (val?.trim?.() ?? '').split('.');
    const whole = wholeRaw ?? '0';
    const frac = fracRaw ?? '';
    const cleanWhole = whole.replace(/^0+/, '') || '0';
    const fracPadded = (frac + '0'.repeat(decimals)).slice(0, decimals);
    const combined = (cleanWhole + fracPadded).replace(/^0+/, '') || '0';
    return combined;
>> *)
Definition toSmallest (val : jstring) (decimals : nat) : jstring :=
  let pieces := split char_dot (trim val) in
  let whole := match pieces with w :: _ => w | [] => [char_0] end in
  let frac := match pieces with _ :: f :: _ => f | _ => [] end in
  let cleanWhole := or_zero (strip_leading_zeros whole) in
  let fracPadded := firstn decimals (frac ++ repeat char_0 decimals) in
  or_zero (strip_leading_zeros (cleanWhole ++ fracPadded)).

(** Decimal digits and their value. *)
Definition is_digit (c : ascii) : bool :=
  (48 <=? nat_of_ascii c)%nat && (nat_of_ascii c <=? 57)%nat.

Definition digit_value (c : ascii) : Z := Z.of_nat (nat_of_ascii c) - 48.

Fixpoint digits_value_acc (acc : Z) (s : jstring) : Z :=
  match s with
  | [] => acc
  | c :: rest => digits_value_acc (acc * 10 + digit_value c) rest
  end.

(** [BigInt(s)] for a string of decimal digits. *)
Definition digits_value (s : jstring) : Z := digits_value_acc 0 s.

Definition all_digits (s : jstring) : bool := forallb is_digit s.

(** The canonical decimal spelling: no leading zero except for "0". *)
Definition canonical (s : jstring) : bool :=
  match s with
  | [] => false
  | c :: rest => negb (Ascii.eqb c char_0) || (match rest with [] => true | _ => false end)
  end.

(** A well-formed non-negative decimal literal: digits, optionally followed
    by a dot and digits. *)
Definition decimal_literal (whole : jstring) (frac : option jstring) : jstring :=
  whole ++ match frac with None => [] | Some f => char_dot :: f end.

End Amount.

(* ========================================================================= *)
(** * sendCrypto: balance pre-check, transfer dispatch, error mapping *)
(* ========================================================================= *)

Module Send.

Import Amount.

(** [/^[0-9]+$/.test(s)] *)
Definition is_numeric (s : jstring) : bool :=
  match s with [] => false | _ => all_digits s end.

(** [BigInt(n).toString()] for [0 <= n]. *)
Definition digit_char (n : Z) : ascii := ascii_of_nat (Z.to_nat (48 + n)).

Fixpoint dec_aux (fuel : nat) (n : Z) (acc : jstring) : jstring :=
  match fuel with
  | O => digit_char n :: acc
  | S fuel' =>
      if n <? 10 then digit_char n :: acc
      else dec_aux fuel' (n / 10) (digit_char (n mod 10) :: acc)
  end.

Definition to_decimal (n : Z) : jstring :=
  dec_aux (S (Z.to_nat (Z.log2 n))) n [].

Definition js (s : string) : jstring := list_ascii_of_string s.

(** What a balance call gives: it throws, or returns a value whose
    [bal?.toString?.() ?? String(bal)] is the given string. *)
Inductive Lookup := LThrows | LReturns (s : jstring).

(** Step (i) of the token path: which WDK method the account has. *)
Inductive WdkBalance :=
| NoWdkMethod
| WdkGetTokenBalance (r : Lookup)
| WdkBalanceOf (r : Lookup).

(** Step (ii): the direct [eth_call balanceOf(owner)]: no provider (or a
    result that is not a [0x] string), a throw (also [BigInt] on a bad hex
    string), or the decoded value. *)
Inductive RpcBalance := RpcUnavailable | RpcThrows | RpcValue (v : Z).

(** Step (iii): the indexer positions: a throw, or the matched position's
    [quantity.int] ([None] when there is no match). *)
Inductive ZerionBalance := ZThrows | ZQuantity (q : option jstring).

Definition zero_or_not_numeric (s : jstring) : bool :=
  negb (is_numeric s) || bool_decide (s = js "0").

(** The native branch: [availableSmallest = '0'], [balanceSource =
    'unknown'], then [account.getBalance()] inside a try/catch. *)
Definition native_balance (getBalance : Lookup) : jstring * jstring :=
  let avail := js "0" in
  let src := js "unknown" in
  match getBalance with
  | LThrows => (avail, src)
  | LReturns s => (s, if is_numeric s then js "wdk-native" else src)
  end.

(** The token branch: the three sources in turn. *)
Definition token_balance (wdk : WdkBalance) (rpc : RpcBalance)
    (zer : ZerionBalance) : jstring * jstring :=
  let '(avail, src) :=
    match wdk with
    | NoWdkMethod | WdkGetTokenBalance LThrows | WdkBalanceOf LThrows =>
        (js "0", js "unknown")
    | WdkGetTokenBalance (LReturns s) =>
        (s, if is_numeric s && negb (bool_decide (s = js "0"))
            then js "wdk-getTokenBalance" else js "unknown")
    | WdkBalanceOf (LReturns s) =>
        (s, if is_numeric s && negb (bool_decide (s = js "0"))
            then js "wdk-balanceOf" else js "unknown")
    end in
  let '(avail, src) :=
    if zero_or_not_numeric avail then
      match rpc with
      | RpcValue v =>
          let a := to_decimal v in
          (a, if bool_decide (a = js "0") then src else js "rpc-balanceOf")
      | _ => (avail, src)
      end
    else (avail, src) in
  if zero_or_not_numeric avail then
    match zer with
    | ZQuantity q =>
        let smallest := match q with Some (_ :: _ as s) => s | _ => js "0" end in
        if is_numeric smallest && negb (bool_decide (smallest = js "0"))
        then (smallest, js "zerion-positions-any") else (avail, src)
    | ZThrows => (avail, src)
    end
  else (avail, src).

(** Exceptions of the controller layer. *)
Inductive HttpError :=
| BadRequest (msg : string)
| Unprocessable (msg : string)
| ServiceUnavailable (msg : string).

Definition insufficient_message (avail src requested : jstring) : string :=
  ("Insufficient balance. Available: " ++ string_of_list_ascii avail ++ " (" ++
   string_of_list_ascii src ++ "), Requested: " ++
   string_of_list_ascii requested)%string.

(** Hex, octal and binary digits of a [BigInt] literal. *)
Definition radix_digit (c : ascii) : option Z :=
  let n := Z.of_nat (nat_of_ascii c) in
  if (48 <=? n) && (n <=? 57) then Some (n - 48)
  else if (97 <=? n) && (n <=? 102) then Some (n - 87)
  else if (65 <=? n) && (n <=? 70) then Some (n - 55)
  else None.

Fixpoint radix_value_acc (base acc : Z) (s : jstring) : option Z :=
  match s with
  | [] => Some acc
  | c :: s' =>
      match radix_digit c with
      | Some d => if d <? base then radix_value_acc base (acc * base + d) s' else None
      | None => None
      end
  end.

Definition radix_value (base : Z) (s : jstring) : option Z :=
  match s with [] => None | _ => radix_value_acc base 0 s end.

(** [BigInt(s)] on a string: surrounding white space is ignored, the empty
    string is [0n], a decimal literal may carry a sign, [0x]/[0o]/[0b]
    literals may not; anything else throws a SyntaxError ([None]). *)
Definition js_BigInt (s : jstring) : option Z :=
  match trim s with
  | [] => Some 0
  | (c :: rest) as t =>
      if Ascii.eqb c "-" then (if is_numeric rest then Some (- digits_value rest) else None)
      else if Ascii.eqb c "+" then (if is_numeric rest then Some (digits_value rest) else None)
      else
        match t with
        | "0"%char :: x :: r =>
            if Ascii.eqb x "x" || Ascii.eqb x "X" then radix_value 16 r
            else if Ascii.eqb x "o" || Ascii.eqb x "O" then radix_value 8 r
            else if Ascii.eqb x "b" || Ascii.eqb x "B" then radix_value 2 r
            else if is_numeric t then Some (digits_value t) else None
        | _ => if is_numeric t then Some (digits_value t) else None
        end
  end.

(** The decision of the pre-check: [Some e] throws [e], [None] proceeds.
    [BigInt(availableSmallest)] is only reached on a digit string; a
    SyntaxError of [BigInt(requestedSmallest)] is caught by the enclosing
    [try], which logs and proceeds. *)
Definition precheck (avail src requested : jstring) : option HttpError :=
  if is_numeric avail then
    match js_BigInt requested with
    | Some req =>
        if digits_value avail <? req
        then Some (Unprocessable (insufficient_message avail src requested))
        else None
    | None => None
    end
  else None.

(** JavaScript values a signer call can resolve to. *)
Inductive JsValue :=
| JUndefined | JNull
| JStr (s : string)
| JNum (n : Z)
| JObj (hash : JsValue) (txHash : JsValue).   (* an object; absent fields are undefined *)

Definition truthy (v : JsValue) : bool :=
  match v with
  | JUndefined | JNull => false
  | JStr s => negb (String.eqb s "")
  | JNum n => negb (n =? 0)
  | JObj _ _ => true
  end.

(** [String(v)] *)
Definition js_String (v : JsValue) : string :=
  match v with
  | JUndefined => "undefined"
  | JNull => "null"
  | JStr s => s
  | JNum n => if n <? 0 then String "-" (string_of_list_ascii (to_decimal (- n)))
              else string_of_list_ascii (to_decimal n)
  | JObj _ _ => "[object Object]"
  end.

Definition get_hash (v : JsValue) : JsValue :=
  match v with JObj h _ => h | _ => JUndefined end.
Definition get_txHash (v : JsValue) : JsValue :=
  match v with JObj _ t => t | _ => JUndefined end.

Definition js_or (a b : JsValue) : JsValue := if truthy a then a else b.

(** [typeof result === 'string' ? result
       : (result?.hash || result?.txHash || String(result))] *)
Definition txHash_of (result : JsValue) : JsValue :=
  match result with
  | JStr _ => result
  | _ => js_or (get_hash result) (js_or (get_txHash result) (JStr (js_String result)))
  end.

(** Outcome of one call on the signer account. *)
Inductive CallOutcome := Throws (msg : string) | Returns (v : JsValue).

(** The token entry points of the account: [None] when the method is
    absent.  [transfer] carries the outcomes of
    [transfer({token, recipient, amount})] and of
    [transfer({token, to, amount})]. *)
Record TokenSigner := mkTokenSigner {
  transfer : option (CallOutcome * CallOutcome);
  sendToken : option CallOutcome;
  transferToken : option CallOutcome;
  send : option CallOutcome }.

Inductive EntryPoint :=
  TransferRecipient | TransferTo | SendToken | TransferToken | GenericSend.

(** Result of the dispatch: the hash it settled on, an error carrying a
    message (mapped by the [catch] below), or a [BadRequestException]
    (rethrown as it is). *)
Inductive Dispatch :=
| DOk (txHash : JsValue)
| DThrow (msg : string)
| DRaise (e : HttpError).

(** The ERC-20 branch of the transfer: the calls it makes, in order, and
    its result. *)
Definition token_dispatch (a : TokenSigner) : list EntryPoint * Dispatch :=
  (* 1) transfer({token, recipient}) then transfer({token, to}) *)
  let '(calls, sent, txHash) :=
    match transfer a with
    | Some (Returns r, _) => ([TransferRecipient], true, txHash_of r)
    | Some (Throws _, Returns r) => ([TransferRecipient; TransferTo], true, txHash_of r)
    | Some (Throws _, Throws _) => ([TransferRecipient; TransferTo], false, JStr "")
    | None => ([], false, JStr "")
    end in
  (* 2) sendToken *)
  let '(calls, sent, txHash) :=
    match sent, sendToken a with
    | false, Some (Returns r) => (calls ++ [SendToken], true, txHash_of r)
    | false, Some (Throws _) => (calls ++ [SendToken], false, txHash)
    | _, _ => (calls, sent, txHash)
    end in
  (* 3) transferToken *)
  let '(calls, sent, txHash) :=
    match sent, transferToken a with
    | false, Some (Returns r) => (calls ++ [TransferToken], true, txHash_of r)
    | false, Some (Throws _) => (calls ++ [TransferToken], false, txHash)
    | _, _ => (calls, sent, txHash)
    end in
  (* 4) generic send: not wrapped in a try *)
  match sent, send a with
  | false, Some (Throws m) => (calls ++ [GenericSend], DThrow m)
  | false, Some (Returns r) =>
      let h := txHash_of r in
      (calls ++ [GenericSend],
       if truthy h then DOk h
       else DThrow "Token transfer method not supported by this account")
  | false, None => (calls, DThrow "Token transfer method not supported by this account")
  | true, _ =>
      (calls, if truthy txHash then DOk txHash
              else DThrow "Token transfer method not supported by this account")
  end.

(** The native branch of the transfer: [send(recipient, amount)], else
    [transfer({to, amount})]; here the hash is read without optional
    chaining, so a [null] or [undefined] result throws a TypeError. *)
Record NativeSigner := mkNativeSigner {
  nsend : option CallOutcome; ntransfer : option CallOutcome }.

Definition native_txHash_of (result : JsValue) : Dispatch :=
  match result with
  | JStr _ => DOk result
  | JUndefined => DThrow "Cannot read properties of undefined (reading 'hash')"
  | JNull => DThrow "Cannot read properties of null (reading 'hash')"
  | _ => DOk (js_or (get_hash result) (js_or (get_txHash result) (JStr (js_String result))))
  end.

Inductive NativeCall := NativeSend | NativeTransfer.

(** The message of the SyntaxError thrown by [BigInt(s)] on a string it
    cannot parse. *)
Definition bigint_error (s : jstring) : string :=
  "Cannot convert " ++ string_of_list_ascii s ++ " to a BigInt".

(** [send(recipient, requestedSmallest)] passes the string as it is;
    [transfer({to, amount: BigInt(requestedSmallest)})] converts it first,
    and a failed conversion throws before [transfer] is called. *)
Definition native_dispatch (chain : string) (requested : jstring) (a : NativeSigner)
    : list NativeCall * Dispatch :=
  match nsend a, ntransfer a with
  | Some (Throws m), _ => ([NativeSend], DThrow m)
  | Some (Returns r), _ => ([NativeSend], native_txHash_of r)
  | None, Some o =>
      match js_BigInt requested with
      | None => ([], DThrow (bigint_error requested))
      | Some _ =>
          match o with
          | Throws m => ([NativeTransfer], DThrow m)
          | Returns r => ([NativeTransfer], native_txHash_of r)
          end
      end
  | None, None =>
      ([], DRaise (BadRequest ("Chain " ++ chain ++ " does not support send operation")))
  end.

(** [message.includes(sub)] *)
Fixpoint includes (sub s : string) : bool :=
  String.prefix sub s ||
  match s with EmptyString => false | String _ s' => includes sub s' end.

(** The inner [catch] of the transfer: map an error message to the
    exception rethrown. *)
Definition classify (msg : string) : HttpError :=
  if includes "insufficient" msg || includes "balance" msg then
    Unprocessable "Insufficient balance for this transaction"
  else if includes "network" msg || includes "timeout" msg || includes "RPC" msg then
    ServiceUnavailable "Blockchain network is unavailable. Please try again later."
  else if includes "invalid address" msg || includes "address" msg then
    BadRequest ("Invalid recipient address: " ++ msg)
  else ServiceUnavailable ("Transaction failed: " ++ msg).

(** After the dispatch: [if (!txHash || typeof txHash !== 'string') throw
    ...], then [return { txHash }]; every error goes through [classify]. *)
Definition finish (d : Dispatch) : HttpError + string :=
  match d with
  | DOk (JStr s) =>
      if String.eqb s "" then
        inl (classify "Transaction submitted but no transaction hash returned")
      else inr s
  | DOk _ => inl (classify "Transaction submitted but no transaction hash returned")
  | DThrow m => inl (classify m)
  | DRaise e => inl e
  end.

(** [sendCrypto] from the computed [requestedSmallest] on, token branch.
    Before any entry point, [amountBigInt] is [BigInt(requestedSmallest)],
    retried as [BigInt(String(requestedSmallest))], the same conversion:
    when it throws, the error goes to the [catch] of the transfer. *)
Definition sendCrypto_token (requested : jstring) (wdk : WdkBalance)
    (rpc : RpcBalance) (zer : ZerionBalance) (a : TokenSigner)
    : list EntryPoint * (HttpError + string) :=
  let '(avail, src) := token_balance wdk rpc zer in
  match precheck avail src requested with
  | Some e => ([], inl e)
  | None =>
      match js_BigInt requested with
      | None => ([], finish (DThrow (bigint_error requested)))
      | Some _ => let '(calls, d) := token_dispatch a in (calls, finish d)
      end
  end.

(** [sendCrypto] from the computed [requestedSmallest] on, native branch. *)
Definition sendCrypto_native (chain : string) (requested : jstring)
    (getBalance : Lookup) (a : NativeSigner) : list NativeCall * (HttpError + string) :=
  let '(avail, src) := native_balance getBalance in
  match precheck avail src requested with
  | Some e => ([], inl e)
  | None => let '(calls, d) := native_dispatch chain requested a in (calls, finish d)
  end.

(** The hash rule of the token dispatch, in the words of its amendment:
    the result itself when it is a string, otherwise its [hash] field when
    truthy, otherwise its [txHash] field when truthy, otherwise [String(result)]. *)
Definition hash_rule_spec (r : JsValue) : JsValue :=
  match r with
  | JStr _ => r
  | _ => if truthy (get_hash r) then get_hash r
         else if truthy (get_txHash r) then get_txHash r
         else JStr (js_String r)
  end.

Definition entry_order : list EntryPoint :=
  [TransferRecipient; TransferTo; SendToken; TransferToken; GenericSend].

Definition entry_outcome (a : TokenSigner) (e : EntryPoint) : option CallOutcome :=
  match e with
  | TransferRecipient => option_map fst (transfer a)
  | TransferTo => option_map snd (transfer a)
  | SendToken => sendToken a
  | TransferToken => transferToken a
  | GenericSend => send a
  end.

(** The entry points in the given order, skipping those the account does
    not have, up to and including the first one that returns. *)
Fixpoint attempts_spec (a : TokenSigner) (es : list EntryPoint)
    : list EntryPoint * option JsValue :=
  match es with
  | [] => ([], None)
  | e :: es' =>
      match entry_outcome a e with
      | None => attempts_spec a es'
      | Some (Returns r) => ([e], Some r)
      | Some (Throws _) => let '(l, res) := attempts_spec a es' in (e :: l, res)
      end
  end.

Definition not_supported : string :=
  "Token transfer method not supported by this account".

Definition token_dispatch_spec (a : TokenSigner) : list EntryPoint * Dispatch :=
  let '(calls, res) := attempts_spec a entry_order in
  (calls,
   match res with
   | Some r => if truthy (hash_rule_spec r) then DOk (hash_rule_spec r) else DThrow not_supported
   | None => match send a with Some (Throws m) => DThrow m | _ => DThrow not_supported end
   end).


End Send.

(* ========================================================================= *)
(** * ChannelService: channel creation, resize, close and the channel id *)
(* ========================================================================= *)

Module Chan.

(** An address is its 160-bit value, a [bigint] an integer, a byte an
    8-bit [Z]. *)
Definition Address := Z.
Definition Hash := Z.

(** [StateIntent] of the clearing-node protocol. *)
Inductive StateIntent := OPERATE | INITIALIZE | RESIZE | FINALIZE.

Record Channel := mkChannel {
  participants : Address * Address;
  adjudicator : Address;
  challenge : Z;
  nonce : Z }.

Record ChannelState := mkChannelState {
  intent : StateIntent;
  version : Z;
  data : string;
  allocations : list (Z * Z) }.

(** The [channel] part of a [create_channel] response. *)
Record ChannelConfig := mkChannelConfig {
  cfg_participants : Address * Address;
  cfg_adjudicator : Address;
  cfg_challenge : Z;
  cfg_nonce : Z }.

(** [response.res[2]] of [create_channel]. *)
Record CreateData := mkCreateData {
  cd_channel : ChannelConfig;
  cd_user_signature : string;
  cd_server_signature : string }.

(** [response.res[2]] of [resize_channel] and [close_channel]. *)
Record UpdateData := mkUpdateData {
  ud_version : Z;
  ud_data : string;
  ud_allocations : list (Z * Z);
  ud_user_signature : string;
  ud_server_signature : string }.

(** The [{ index, amount }] objects handed to the contract. *)
Record Allocation := mkAllocation { alloc_index : Z; alloc_amount : Z }.

Record StateArg := mkStateArg {
  sa_intent : StateIntent;
  sa_version : Z;
  sa_data : string;
  sa_allocations : list Allocation }.

(** A [walletClient.writeContract] call on the custody contract. *)
Record ContractCall := mkContractCall {
  call_address : Address;
  call_functionName : string;
  call_channelId : Hash;
  call_state : StateArg;
  call_signatures : list string }.

Record ChannelWithState := mkChannelWithState {
  cws_channel : Channel;
  cws_channelId : Hash;
  cws_state : ChannelState;
  cws_chainId : Z;
  cws_status : string }.

(** [x.toString(16)]-free rendering of a chain id in error messages. *)
Definition chain_str (n : Z) : string := string_of_list_ascii (Send.to_decimal n).

(** [n] big-endian bytes of [x]. *)
Fixpoint be_bytes (n : nat) (x : Z) : list Z :=
  match n with
  | O => []
  | S n' => be_bytes n' (x / 256) ++ [x mod 256]
  end.

(** One 32-byte ABI word. *)
Definition word (x : Z) : list Z := be_bytes 32 x.

(** [encodeAbiParameters(parseAbiParameters('address[2], address, uint256,
    uint256'), [participants, adjudicator, challenge, nonce])]: all five
    values are static, so each takes one word, in order; an address or a
    [uint256] out of range throws ([None]). *)
Definition in_range (bits : Z) (x : Z) : bool := (0 <=? x) && (x <? 2 ^ bits).

Definition encode_channel (c : Channel) : option (list Z) :=
  let '(p0, p1) := participants c in
  if in_range 160 p0 && in_range 160 p1 && in_range 160 (adjudicator c)
     && in_range 256 (challenge c) && in_range 256 (nonce c)
  then Some (word p0 ++ word p1 ++ word (adjudicator c) ++
             word (challenge c) ++ word (nonce c))
  else None.

(** Big-endian reading of a byte string. *)
Definition decode_be (l : list Z) : Z := fold_left (fun acc b => acc * 256 + b) l 0.

Section Service.

(** The hash function and the custody contract of each chain. *)
Variable keccak256 : list Z -> Hash.
Variable custodyAddresses : Z -> option Address.

Definition computeChannelId (c : Channel) : option Hash :=
  option_map keccak256 (encode_channel c).

Definition parse_channel (cfg : ChannelConfig) : Channel :=
  mkChannel (cfg_participants cfg) (cfg_adjudicator cfg)
            (cfg_challenge cfg) (cfg_nonce cfg).

(** [initialDeposit ? [[0n, initialDeposit], [1n, 0n]] : [[0n, 0n], [1n, 0n]]]
    ([0n] is falsy). *)
Definition initial_allocations (initialDeposit : option Z) : list (Z * Z) :=
  match initialDeposit with
  | Some d => if negb (d =? 0) then [(0, d); (1, 0)] else [(0, 0); (1, 0)]
  | None => [(0, 0); (1, 0)]
  end.

Definition to_state_arg (st : ChannelState) : StateArg :=
  mkStateArg (intent st) (version st) (data st)
    (map (fun '(i, a) => mkAllocation i a) (allocations st)).

(** [createChannel] after the clearing node answered with [cd]: the
    contract call it submits and the channel it returns, or the error it
    throws. *)
Definition createChannel (chainId : Z) (initialDeposit : option Z)
    (cd : CreateData) : string + (ContractCall * ChannelWithState) :=
  let channel := parse_channel (cd_channel cd) in
  let state := mkChannelState INITIALIZE 0 "0x"%string (initial_allocations initialDeposit) in
  match computeChannelId channel with
  | None => inl "ABI encoding error"%string
  | Some channelId =>
      match custodyAddresses chainId with
      | None => inl ("Custody address not found for chain " ++ chain_str chainId)%string
      | Some custody =>
          let signatures := [cd_user_signature cd; cd_server_signature cd] in
          inr (mkContractCall custody "create"%string channelId (to_state_arg state) signatures,
               mkChannelWithState channel channelId state chainId "active"%string)
      end
  end.

(** [resizeChannel] after the clearing node answered with [rd]. *)
Definition resizeChannel (channelId : Hash) (chainId : Z) (rd : UpdateData)
    : string + (ContractCall * ChannelState) :=
  let newState := mkChannelState RESIZE (ud_version rd) (ud_data rd) (ud_allocations rd) in
  match custodyAddresses chainId with
  | None => inl ("Custody address not found for chain " ++ chain_str chainId)%string
  | Some custody =>
      let signatures := [ud_user_signature rd; ud_server_signature rd] in
      inr (mkContractCall custody "resize"%string channelId (to_state_arg newState) signatures,
           newState)
  end.

(** [closeChannel] after the clearing node answered with [cd]. *)
Definition closeChannel (channelId : Hash) (chainId : Z) (cd : UpdateData)
    : string + (ContractCall * ChannelState) :=
  let finalState := mkChannelState FINALIZE (ud_version cd) "0x"%string (ud_allocations cd) in
  match custodyAddresses chainId with
  | None => inl ("Custody address not found for chain " ++ chain_str chainId)%string
  | Some custody =>
      let signatures := [ud_user_signature cd; ud_server_signature cd] in
      inr (mkContractCall custody "close"%string channelId (to_state_arg finalState) signatures,
           finalState)
  end.

End Service.

End Chan.

(* ========================================================================= *)
(** * Token metadata: ABI string decoding and the decimals of a token *)
(* ========================================================================= *)

Module Hex.

Import Amount Send.

(** [parseInt(s, 16)]: leading white space is skipped, one sign is taken,
    a [0x]/[0X] prefix is dropped, then the longest run of hex digits is
    read; no digit at all gives [NaN] ([None]).  The value is the exact
    integer; the callers only compare it with small bounds or lengths, which
    the rounding of large values to a [Number] does not affect. *)
Fixpoint take_hex (s : jstring) : jstring :=
  match s with
  | c :: r => match radix_digit c with Some _ => c :: take_hex r | None => [] end
  | [] => []
  end.

(** One leading sign. *)
Definition sign_split (t : jstring) : bool * jstring :=
  match t with
  | "-"%char :: r => (true, r)
  | "+"%char :: r => (false, r)
  | _ => (false, t)
  end.

(** The [0x]/[0X] prefix allowed by radix 16. *)
Definition strip_0x (t : jstring) : jstring :=
  match t with
  | "0"%char :: x :: r => if Ascii.eqb x "x" || Ascii.eqb x "X" then r else t
  | _ => t
  end.

Definition js_parseInt16 (s : jstring) : option Z :=
  let '(neg, t1) := sign_split (drop_while is_js_space s) in
  match radix_value 16 (take_hex (strip_0x t1)) with
  | Some v => Some (if neg then - v else v)
  | None => None
  end.

(** [s.slice(start, end)]; a [NaN] bound counts as [0]. *)
Definition js_slice (s : jstring) (start stop : Z) : jstring :=
  let len := Z.of_nat (length s) in
  let rel k := if k <? 0 then Z.max (len + k) 0 else Z.min k len in
  firstn (Z.to_nat (rel stop - rel start)) (skipn (Z.to_nat (rel start)) s).

(** One iteration of the loop: [parseInt(stringHex.substr(i, 2), 16)], kept
    as [String.fromCharCode(charCode)] when [charCode > 0]. *)
Definition char_of (chunk : jstring) : jstring :=
  match js_parseInt16 chunk with
  | Some c => if 0 <? c then [ascii_of_nat (Z.to_nat c)] else []
  | None => []
  end.

(** [for (let i = 0; i < stringHex.length; i += 2) ...] *)
Fixpoint decode_loop (s : jstring) : jstring :=
  match s with
  | [] => []
  | [c] => char_of [c]
  | c1 :: c2 :: r => char_of [c1; c2] ++ decode_loop r
  end.

(** [decodeStringFromHex(hex)] of [WalletService]; nothing in its [try]
    throws on a string argument. *)
Definition decodeStringFromHex (hex : jstring) : jstring :=
  let h := match hex with "0"%char :: "x"%char :: r => r | _ => hex end in
  let length := js_parseInt16 (js_slice h 64 128) in
  let stringHex := js_slice h 128 (match length with Some l => 128 + l * 2 | None => 0 end) in
  match decode_loop stringHex with
  | [] => js "UNKNOWN"
  | result => result
  end.

(** Encoders used to state properties: [k] lower-case hex digits of [n]. *)
Definition hex_digit (n : Z) : ascii := ascii_of_nat (Z.to_nat (if n <? 10 then 48 + n else 87 + n)).

Fixpoint hex_fixed (k : nat) (n : Z) : jstring :=
  match k with
  | O => []
  | S k' => hex_digit ((n / 16 ^ Z.of_nat k') mod 16) :: hex_fixed k' n
  end.

Definition hex_bytes (bs : list Z) : jstring := flat_map (hex_fixed 2) bs.

(** The ABI encoding of a [string] return value: offset word, length word,
    the bytes, zero padding to a whole word. *)
Definition abi_string (bs : list Z) : jstring :=
  js "0x" ++ hex_fixed 64 32 ++ hex_fixed 64 (Z.of_nat (length bs)) ++ hex_bytes bs ++
  repeat char_0 (Nat.modulo (64 - Nat.modulo (2 * length bs) 64) 64).

End Hex.

Module Decimals.
Import Amount Send Hex.

(** [String.prototype.toLowerCase] on Latin-1 code units: [A-Z] and
    [U+00C0..U+00DE] except [U+00D7] move up by 32; every other unit is
    unchanged. *)
Definition lower_char (c : ascii) : ascii :=
  let n := nat_of_ascii c in
  if ((65 <=? n) && (n <=? 90))%nat || ((192 <=? n) && (n <=? 222) && negb (n =? 215))%nat
  then ascii_of_nat (n + 32) else c.

Definition toLowerCase (s : jstring) : jstring := map lower_char s.

(** The members of [Object.prototype]: indexing an object literal with one
    of these keys gives a function (an object for [__proto__]), which is
    truthy and never a string. *)
Definition proto_keys : list string :=
  ["constructor"; "__defineGetter__"; "__defineSetter__"; "hasOwnProperty";
   "__lookupGetter__"; "__lookupSetter__"; "isPrototypeOf";
   "propertyIsEnumerable"; "toString"; "valueOf"; "__proto__";
   "toLocaleString"]%string.

(** [const zChain = zerionChainMap[chain] || chain]: [None] when the value
    is not a string (an [Object.prototype] member). *)
Definition zerion_chain (chain : string) : option string :=
  match chain with
  | "ethereum" | "ethereumErc4337" => Some "ethereum"
  | "base" | "baseErc4337" => Some "base"
  | "arbitrum" | "arbitrumErc4337" => Some "arbitrum"
  | "polygon" | "polygonErc4337" => Some "polygon"
  | _ => if existsb (String.eqb chain) proto_keys then None else Some chain
  end%string.

(** [p.attributes?.fungible_info?.implementations?.[0]?.address]: missing
    somewhere on the path, a string, or some other value (on which
    [.toLowerCase()] throws). *)
Inductive Field := FMissing | FStr (s : string) | FOther.

(** [match?.attributes?.fungible_info?.decimals]: a finite [number], or
    anything else.  [NaN] and the infinities fail [d >= 0 && d <= 36]
    like a non-number. *)
Inductive NumField := NNumber (q : Q) | NNotNumber.

(** A Zerion position: [null]/[undefined] (reading [p.attributes] throws),
    or a value with the three fields read by the code; [cid] is
    [p?.relationships?.chain?.data?.id] when it is a string. *)
Inductive Position :=
| PNullish
| PObj (impl : Field) (cid : option string) (decimals : NumField).

(** The Zerion lookup: a throw ([account.getAddress()],
    [getPositionsAnyChain], or [data] without a [find] method), no [data],
    or the positions. *)
Inductive Positions := PosThrows | PosNoData | PosData (ps : list Position).

(** The [eth_call decimals()] step: no provider (or no [request] method),
    a throw, or the value the request resolves to. *)
Inductive RpcDecimals := RpcNoProvider | RpcRequestThrows | RpcResult (v : JsValue).

(** The [find] callback: [None] when it throws. *)
Definition pos_matches (tokL : jstring) (zChain : option string) (p : Position) : option bool :=
  match p with
  | PNullish => None
  | PObj impl cid _ =>
      match impl with
      | FOther => None
      | FMissing => Some false
      | FStr s =>
          Some (bool_decide (toLowerCase (js s) = tokL) &&
                match cid, zChain with
                | Some c, Some z => String.eqb c z
                | _, _ => false
                end)
      end
  end.

(** [Array.prototype.find]: [None] when the callback throws, [Some None]
    when nothing matches. *)
Fixpoint js_find {A} (f : A -> option bool) (xs : list A) : option (option A) :=
  match xs with
  | [] => Some None
  | x :: r =>
      match f x with
      | None => None
      | Some true => Some (Some x)
      | Some false => js_find f r
      end
  end.

(** The RPC step: the value assigned to [tokenDecimals], if any. *)
Definition rpc_decimals (rpc : RpcDecimals) : option Z :=
  match rpc with
  | RpcResult (JStr result) =>
      if String.eqb result "0x" || String.eqb result "0x0" then None
      else
        match js_parseInt16 (js result) with
        | Some parsed => if (0 <=? parsed) && (parsed <=? 36) then Some parsed else None
        | None => None
        end
  | _ => None
  end.

(** The [if (tokenAddress)] branch of [sendCrypto]'s decimals resolution:
    the final [(tokenDecimals, decimalsSource)]. *)
Definition token_decimals (chain tokenAddress : string) (rpc : RpcDecimals)
    (zer : Positions) : Q * string :=
  let '(tokenDecimals, decimalsSource) :=
    match rpc_decimals rpc with
    | Some parsed => (inject_Z parsed, "rpc-decimals()"%string)
    | None => (inject_Z 18, "fallback-18"%string)
    end in
  if String.eqb decimalsSource "fallback-18" then
    match zer with
    | PosData ps =>
        match js_find (pos_matches (toLowerCase (js tokenAddress)) (zerion_chain chain)) ps with
        | Some (Some (PObj _ _ (NNumber d))) =>
            if Qle_bool 0 d && Qle_bool d (inject_Z 36)
            then (d, "zerion-positions-any"%string)
            else (tokenDecimals, decimalsSource)
        | _ => (tokenDecimals, decimalsSource)
        end
    | _ => (tokenDecimals, decimalsSource)
    end
  else (tokenDecimals, decimalsSource).

End Decimals.

(* ========================================================================= *)
(** * WalletService.getTransactionsAny: merging the per-address histories *)
(* ========================================================================= *)

Module Txs.
Import Amount Send Decimals.

Section Merge.

(** The fields of a transaction that are read only to build the row
    (status, transfers, timestamps, block number), and what the code makes
    of them: [None] when that code throws (caught by the [try]). *)
Variable Attrs Info : Type.
Variable details : Attrs -> option Info.

(** A Zerion transaction: [null]/[undefined] ([tx.attributes] throws), or a
    value with [attrs.hash] (where [attrs = tx.attributes || {}]), [tx.id],
    [tx.relationships?.chain?.data?.id] and the other attributes. *)
Inductive Tx :=
| TxNullish
| TxObj (hash : JsValue) (id : JsValue) (chain_id : JsValue) (attrs : Attrs).

Record Row := mkRow { row_txHash : jstring; row_chain : jstring; row_info : Info }.

(** [tx.relationships?.chain?.data?.id?.toLowerCase() || 'unknown']: a
    nullish id gives [undefined]; a value that is not a string has no
    [toLowerCase] and the call throws ([None]). *)
Definition chain_of (v : JsValue) : option jstring :=
  match v with
  | JUndefined | JNull => Some (js "unknown")
  | JStr s => match toLowerCase (js s) with [] => Some (js "unknown") | l => Some l end
  | _ => None
  end.

(** [(attrs.hash || tx.id || '').toLowerCase()] *)
Definition hash_of (hash id : JsValue) : option jstring :=
  match js_or hash (js_or id (JStr "")) with
  | JStr s => Some (toLowerCase (js s))
  | _ => None
  end.

(** The body of the inner loop up to the key: the key and the row to store,
    or [None] when the transaction is skipped ([continue] on an empty hash,
    or an exception). *)
Definition process (tx : Tx) : option (jstring * Row) :=
  match tx with
  | TxNullish => None
  | TxObj hash id cid attrs =>
      match chain_of cid with
      | None => None
      | Some chainId =>
          match hash_of hash id with
          | None | Some [] => None
          | Some h =>
              match details attrs with
              | None => None
              | Some info => Some ((chainId ++ js ":" ++ h)%list, mkRow h chainId info)
              end
          end
      end
  end.

(** [if (!byKey.has(key)) byKey.set(key, row)] on a [Map], kept as its
    entries in insertion order. *)
Definition set_if_absent (m : list (jstring * Row)) (kv : jstring * Row) : list (jstring * Row) :=
  if existsb (fun e => bool_decide (e.1 = kv.1)) m then m else m ++ [kv].

Definition merge_step (m : list (jstring * Row)) (tx : Tx) : list (jstring * Row) :=
  match process tx with Some kv => set_if_absent m kv | None => m end.

(** The two loops over [perAddr], then [Array.from(byKey.values())]. *)
Definition merge_transactions (perAddr : list (list Tx)) : list Row :=
  map snd (fold_left merge_step (concat perAddr) []).

End Merge.

Arguments TxNullish {Attrs}.
Arguments TxObj {Attrs} hash id chain_id attrs.
Arguments mkRow {Info} row_txHash row_chain row_info.
Arguments row_txHash {Info} r.
Arguments row_chain {Info} r.
Arguments row_info {Info} r.
Arguments process {Attrs Info} details tx.
Arguments set_if_absent {Info} m kv.
Arguments merge_step {Attrs Info} details m tx.
Arguments merge_transactions {Attrs Info} details perAddr.

(** The [Map] key [`${chainId}:${hash}`] a row was stored under. *)
Definition row_key {Info} (r : Row Info) : jstring :=
  (row_chain r ++ js ":" ++ row_txHash r)%list.

End Txs.

(* ========================================================================= *)
(** * Theorems *)
(* ========================================================================= *)


Import WS.

(** ** Transport *)

Ltac unfold_M := unfold mbind, M_bind, mret, M_ret in *.

Section TransportFacts.

Variable f : RPCRequest -> bool.

Lemma final_cons e evs s :
  final f (e :: evs) s = final f evs (final f [e] s).
Proof.
  unfold final; cbn; unfold_M; cbn.
  destruct (runM (step f e) s) as [[a s1] o1]; cbn.
  destruct (runM (run f evs) s1) as [[b s2] o2]. reflexivity.
Qed.

Lemma outputs_cons e evs s :
  outputs f (e :: evs) s = outputs f [e] s ++ outputs f evs (final f [e] s).
Proof.
  unfold final, outputs; cbn; unfold_M; cbn.
  destruct (runM (step f e) s) as [[a s1] o1]; cbn.
  destruct (runM (run f evs) s1) as [[b s2] o2]; cbn.
  by rewrite !app_nil_r.
Qed.

Lemma flush_loop_all_ok q :
  Forall (fun r => f r = true) q -> flush_loop f q = ([], map OWrite q).
Proof.
  induction 1 as [|r q Hr Hq IH]; [done|]. cbn. by rewrite Hr, IH.
Qed.

Lemma flush_loop_split q : exists W,
  W ++ (flush_loop f q).1 = q /\
  Forall (fun r => f r = true) W /\
  match (flush_loop f q).1 with [] => True | r :: _ => f r = false end /\
  (flush_loop f q).2 = map OWrite W ++ write_failure (flush_loop f q).1.
Proof.
  induction q as [|r q (W & H1 & H2 & H3 & H4)].
  - by exists [].
  - cbn [flush_loop]. destruct (f r) eqn:Hr.
    + destruct (flush_loop f q) as [q' o]. cbn in *.
      exists (r :: W). rewrite H4. cbn. rewrite H1. auto.
    + exists []. cbn. auto.
Qed.

Lemma returned_ids_flush q : returned_ids (snd (flush_loop f q)) = [].
Proof.
  induction q as [|r q IH]; [done|]. cbn.
  destruct (f r); [|done]. destruct (flush_loop f q) eqn:E. cbn in *. done.
Qed.

Lemma returned_ids_app o1 o2 :
  returned_ids (o1 ++ o2) = returned_ids o1 ++ returned_ids o2.
Proof. apply omap_app. Qed.

Lemma neutral_bind {A B} (m : M A) (k : A -> M B) :
  neutral m -> (forall a, neutral (k a)) -> neutral (m ≫= k).
Proof.
  intros Hm Hk s. unfold_M; cbn [runM].
  specialize (Hm s). destruct (runM m s) as [[a s1] o1]; cbn [fst snd] in *.
  specialize (Hk a s1). destruct (runM (k a) s1) as [[b s2] o2]; cbn [fst snd] in *.
  rewrite returned_ids_app. split; [by rewrite (proj1 Hm), (proj1 Hk)|lia].
Qed.

Lemma neutral_ret {A} (a : A) : neutral (mret a).
Proof. by intros s. Qed.

Lemma neutral_gets {A} (g : WSM -> A) : neutral (gets g).
Proof. by intros s. Qed.

Lemma neutral_modify (g : WSM -> WSM) :
  (forall s, requestIdCounter (g s) = requestIdCounter s) -> neutral (modify g).
Proof. intros H s. cbn. auto. Qed.

Lemma neutral_emits o : returned_ids o = [] -> neutral (emits o).
Proof. intros H s. cbn. auto. Qed.

Lemma neutral_emit o :
  (forall n, o <> OReturnId n) -> neutral (emit o).
Proof. intros H s. cbn. split; [|done]. destruct o; try done. by destruct (H n). Qed.

Ltac neutral_tac :=
  repeat first
    [ apply neutral_bind; [| intros ]
    | apply neutral_ret
    | apply neutral_gets
    | apply neutral_modify; intros; reflexivity
    | apply neutral_emit; intros; discriminate
    | progress unfold when
    | match goal with
      | |- neutral (emits ?o) =>
          match goal with
          | E : flush_loop f ?q = (_, o) |- _ =>
              apply neutral_emits;
              pose proof (returned_ids_flush q) as Hf; rewrite E in Hf; exact Hf
          end
      end
    | case_match ].

Lemma neutral_flush : neutral (flushMessageQueue f).
Proof. unfold flushMessageQueue, isConnected. neutral_tac. Qed.

Lemma neutral_connect : neutral (connect).
Proof. unfold connect. neutral_tac. Qed.

Lemma neutral_connect_throws : neutral (connect_throws).
Proof. unfold connect_throws. neutral_tac. Qed.

Lemma neutral_step e : is_next_id e = false -> neutral (step f e).
Proof.
  intros He. destruct e; try discriminate; cbn [step];
  unfold disconnect, send, on_open, on_close, scheduleReconnect,
    on_connect_timeout, on_request_timeout, handleMessage;
  neutral_tac; try apply neutral_flush; try apply neutral_connect;
  try apply neutral_connect_throws.
Qed.

(** Only [getNextRequestId] touches the id counter or returns an id. *)
Lemma step_ids e s :
  returned_ids (outputs f [e] s) =
    (if is_next_id e then [requestIdCounter s] else []) /\
  requestIdCounter (final f [e] s) =
    (if is_next_id e then js_succ (requestIdCounter s) else requestIdCounter s).
Proof.
  unfold outputs, final. cbn [run]. unfold_M; cbn.
  destruct (is_next_id e) eqn:He.
  - destruct e; try discriminate. cbn. split; done.
  - pose proof (neutral_step e He s) as [H1 H2].
    destruct (runM (step f e) s) as [[a s1] o1]; cbn in *.
    rewrite app_nil_r. split; [done|lia].
Qed.

End TransportFacts.

Lemma run_ids f evs s :
  returned_ids (outputs f evs s) =
    js_ids (requestIdCounter s) (count_next_ids evs) /\
  requestIdCounter (final f evs s) =
    Nat.iter (count_next_ids evs) js_succ (requestIdCounter s).
Proof.
  revert s. induction evs as [|e evs IH]; intros s.
  - unfold outputs, final. cbn. split; done.
  - rewrite (outputs_cons f e evs s), (final_cons f e evs s), returned_ids_app.
    destruct (step_ids f e s) as [H1 H2].
    destruct (IH (final f [e] s)) as [H3 H4].
    cbn [count_next_ids]. rewrite H1, H3, H4, H2.
    destruct (is_next_id e); cbn [Nat.add app].
    + split; [reflexivity|]. symmetry. apply Nat.iter_succ_r.
    + split; reflexivity.
Qed.

Lemma js_ids_zseq start n :
  start + Z.of_nat n <= 2 ^ 53 + 1 -> js_ids start n = zseq start n.
Proof.
  revert start. induction n as [|n IH]; intros start Hn; [done|].
  cbn [js_ids zseq]. f_equal. destruct n as [|n]; [done|].
  unfold js_succ. rewrite (proj2 (Z.ltb_lt start (2 ^ 53))) by lia.
  apply IH. lia.
Qed.

Lemma js_ids_app start n m :
  js_ids start (n + m) = js_ids start n ++ js_ids (Nat.iter n js_succ start) m.
Proof.
  revert start. induction n as [|n IH]; intros start; [done|].
  cbn [js_ids Nat.add app]. rewrite IH, <- Nat.iter_succ_r. done.
Qed.

Lemma iter_js_succ start n :
  start + Z.of_nat n <= 2 ^ 53 -> Nat.iter n js_succ start = start + Z.of_nat n.
Proof.
  induction n as [|n IH]; intros Hn; [cbn; lia|].
  rewrite Nat.iter_succ, IH by lia. unfold js_succ.
  rewrite (proj2 (Z.ltb_lt _ (2 ^ 53))) by lia. lia.
Qed.

Lemma js_ids_two x : js_ids x 2 = [x; js_succ x].
Proof. done. Qed.

Lemma count_next_ids_repeat k : count_next_ids (repeat NextRequestId k) = k.
Proof. induction k as [|k IH]; [done|]. cbn [repeat count_next_ids]. rewrite IH. done. Qed.

Lemma zseq_lower start n x : In x (zseq start n) -> start <= x.
Proof.
  revert start. induction n as [|n IH]; intros start; cbn; [done|].
  intros [<-|H]; [lia|]. apply IH in H. lia.
Qed.

Lemma zseq_sorted start n : StronglySorted Z.lt (zseq start n).
Proof.
  revert start. induction n as [|n IH]; intros start; cbn; constructor; [done|].
  apply List.Forall_forall. intros x Hx%zseq_lower. lia.
Qed.

Lemma zseq_nodup start n : NoDup (zseq start n).
Proof.
  revert start. induction n as [|n IH]; intros start; cbn; constructor; [|done].
  intros Hx%list_elem_of_In%zseq_lower. lia.
Qed.

(** C1 (counterexample): a connection opens with [get_ledger_balances] in
    the offline queue and an on-connect hook registered; the queued request
    is written to the socket before the hook is called. *)
Lemma C1_flush_precedes_hook :
  let s := final writes_ok [RegisterHooks hooks_all; Send ledger_req; Connect]
             (init defaultConfig) in
  messageQueue s = [ledger_req] /\
  outputs writes_ok [SockOpen] s = [OWrite ledger_req; OOnConnect; OConnectResolved] /\
  hook_before_first_write (outputs writes_ok [SockOpen] s) = false.
Proof. vm_compute. repeat split. Qed.

(** C1 (amended): when a connection opens (on a live socket), the open
    handler sets CONNECTED and resets the reconnect counter, then flushes
    the offline queue: it writes a prefix [W] of the queue in FIFO order,
    stopping at the first write that throws, whose request stays at the
    head of the queue with the rest behind it.  Only after this flush does
    it call the on-connect hook, if one is registered, and resolve
    [connect()]: the hook never precedes or gates the flush. *)
Lemma C1_open_flushes_then_calls_hook f s :
  ws s <> None ->
  let s' := final f [SockOpen] s in
  connectionState s' = CONNECTED /\ reconnectAttempts s' = 0 /\
  exists W,
    W ++ messageQueue s' = messageQueue s /\
    Forall (fun r => f r = true) W /\
    match messageQueue s' with [] => True | r :: _ => f r = false end /\
    outputs f [SockOpen] s =
      map OWrite W ++ write_failure (messageQueue s') ++
      (if onConnect (eventHandlers s) then [OOnConnect] else []) ++ [OConnectResolved].
Proof.
  intros Hw. cbn zeta.
  destruct s as [c st w a q hs tm nt rc rt [hc hd hm]]; cbn in Hw.
  destruct w as [w|]; [|done].
  destruct (flush_loop_split f q) as (W & H1 & H2 & H3 & H4).
  unfold outputs, final; cbn. unfold_M.
  destruct q as [|r q].
  - cbn in H1. apply app_eq_nil in H1 as [-> _].
    destruct hc; cbn; (split; [done|]; split; [done|]; exists []; repeat split; constructor).
  - cbn -[flush_loop].
    destruct (flush_loop f (r :: q)) as [q' o]. cbn in H1, H3, H4 |- *. subst o.
    destruct hc; cbn; rewrite ?app_nil_r;
      (split; [done|]; split; [done|]; exists W; split; [done|]; split; [done|];
       split; [done|]; by rewrite <- !app_assoc).
Qed.

Lemma C1_open_flushes_then_calls_hook_witness :
  let f := fun r => negb (req_id r =? 2) in
  let s := final f [RegisterHooks hooks_all; Send (mkRequest 1 "a");
                    Send (mkRequest 2 "b"); Send (mkRequest 3 "c"); Connect]
             (init defaultConfig) in
  let s' := final f [SockOpen] s in
  connectionState s' = CONNECTED /\ reconnectAttempts s' = 0 /\
  exists W,
    W ++ messageQueue s' = messageQueue s /\
    Forall (fun r => f r = true) W /\
    match messageQueue s' with [] => True | r :: _ => f r = false end /\
    outputs f [SockOpen] s =
      map OWrite W ++ write_failure (messageQueue s') ++
      (if onConnect (eventHandlers s) then [OOnConnect] else []) ++ [OConnectResolved].
Proof.
  intros f s. apply C1_open_flushes_then_calls_hook. vm_compute. discriminate.
Defined.

(** C2 (counterexample): with the default budget of 5 attempts, the
    transport reaches FAILED; a later [send] neither writes nor rejects: the
    request is put in the offline queue, and the caller is only failed when
    its request timer fires, with a timeout error. *)
Lemma C2_failed_send_is_queued :
  let s := final writes_ok exhaust_budget (init defaultConfig) in
  connectionState s = FAILED /\
  outputs writes_ok [Send ledger_req] s = [] /\
  messageQueue (final writes_ok [Send ledger_req] s) = [ledger_req] /\
  outputs writes_ok [Send ledger_req; RequestTimeout 0] s =
    [OReject 1 (ErrTimeout 1)].
Proof. vm_compute. repeat split. Qed.

(** C2 (amended): a close that arrives once the attempt counter has reached
    [maxReconnectAttempts] sets the state to FAILED with no socket; a [send]
    in that state has no immediate effect on the caller: it installs the
    response handler and its timer and appends the request to the offline
    queue, and the caller is rejected with a timeout error when that timer
    fires. *)
Lemma C2_failed_send_waits_for_timeout f s code r :
  maxReconnectAttempts (cfg s) <= reconnectAttempts s ->
  let s1 := final f [SockClose code] s in
  let s2 := final f [Send r] s1 in
  connectionState s1 = FAILED /\ ws s1 = None /\
  outputs f [Send r] s1 = [] /\
  messageQueue s2 = messageQueue s ++ [r] /\
  responseHandlers s2 !! req_id r = Some (nextTimer s) /\
  outputs f [RequestTimeout (nextTimer s)] s2 =
    [OReject (req_id r) (ErrTimeout (req_id r))].
Proof.
  intros Ha.
  destruct s as [c st w a q hs tm nt rc rt hk]; cbn in *.
  unfold outputs, final; cbn. unfold_M; cbn.
  destruct (onDisconnect hk); cbn;
    rewrite (proj2 (Z.ltb_ge _ _) Ha), andb_false_r, (proj2 (Z.leb_le _ _) Ha); cbn;
    rewrite !lookup_insert_eq; cbn; repeat split.
Qed.

Lemma C2_failed_send_waits_for_timeout_witness :
  let s := final writes_ok exhaust_budget (init defaultConfig) in
  let s1 := final writes_ok [SockClose 1006] s in
  let s2 := final writes_ok [Send ledger_req] s1 in
  connectionState s1 = FAILED /\ ws s1 = None /\
  outputs writes_ok [Send ledger_req] s1 = [] /\
  messageQueue s2 = messageQueue s ++ [ledger_req] /\
  responseHandlers s2 !! req_id ledger_req = Some (nextTimer s) /\
  outputs writes_ok [RequestTimeout (nextTimer s)] s2 =
    [OReject (req_id ledger_req) (ErrTimeout (req_id ledger_req))].
Proof.
  apply C2_failed_send_waits_for_timeout. vm_compute. discriminate.
Defined.

(** C3 (counterexample): the id counter is a JavaScript number.  After
    [2^53 + 1] calls of [getNextRequestId] on a fresh manager, the last two
    calls both return [2^53]: [2^53 + 1] rounds back to [2^53], so ids
    repeat and the returned ids are not pairwise distinct. *)
Lemma C3_ids_repeat_after_2_53 :
  let evs := repeat NextRequestId (Z.to_nat (2 ^ 53) + 1) in
  (exists earlier, returned_ids (outputs writes_ok evs (init defaultConfig)) =
                   earlier ++ [2 ^ 53; 2 ^ 53]) /\
  ~ NoDup (returned_ids (outputs writes_ok evs (init defaultConfig))).
Proof.
  intros evs.
  assert (Hids : returned_ids (outputs writes_ok evs (init defaultConfig)) =
                 js_ids 1 (Z.to_nat (2 ^ 53 - 1)) ++ [2 ^ 53; 2 ^ 53]).
  { destruct (run_ids writes_ok evs (init defaultConfig)) as [H _].
    rewrite H. unfold evs. rewrite count_next_ids_repeat.
    cbn [init requestIdCounter].
    replace (Z.to_nat (2 ^ 53) + 1)%nat with (Z.to_nat (2 ^ 53 - 1) + 2)%nat by lia.
    rewrite js_ids_app, iter_js_succ by lia.
    replace (1 + Z.of_nat (Z.to_nat (2 ^ 53 - 1))) with (2 ^ 53) by lia.
    rewrite (js_ids_two (2 ^ 53)). unfold js_succ. rewrite Z.ltb_irrefl. cbv beta iota. reflexivity. }
  split; [by eexists|]. rewrite Hids.
  intros Hnd. apply NoDup_app in Hnd as (_ & _ & Hnd).
  apply NoDup_cons in Hnd as [Hin _]. apply Hin. by apply list_elem_of_singleton.
Qed.

(** C3 (amended): along any run of a fresh manager (any interleaving of
    sends, reconnections, timeouts and messages) with at most [2^53] calls
    of [getNextRequestId], the ids it returns are exactly 1, 2, ..., k;
    hence they start at 1, are strictly increasing and pairwise distinct. *)
Theorem C3_request_ids_fresh f c evs :
  Z.of_nat (count_next_ids evs) <= 2 ^ 53 ->
  let ids := returned_ids (outputs f evs (init c)) in
  ids = zseq 1 (count_next_ids evs) /\ StronglySorted Z.lt ids /\ NoDup ids.
Proof.
  intros Hk. cbn zeta. destruct (run_ids f evs (init c)) as [H _].
  rewrite H. cbn [init requestIdCounter]. rewrite js_ids_zseq by lia.
  split; [done|]. split; [apply zseq_sorted|apply zseq_nodup].
Qed.

Lemma C3_request_ids_fresh_witness :
  let evs := [NextRequestId; Connect; SockOpen; NextRequestId; SockClose 1006;
              ReconnectTimerFires; NextRequestId] in
  Z.of_nat (count_next_ids evs) <= 2 ^ 53 /\
  let ids := returned_ids (outputs writes_ok evs (init defaultConfig)) in
  ids = zseq 1 (count_next_ids evs) /\ StronglySorted Z.lt ids /\ NoDup ids.
Proof.
  intros evs. split.
  - apply Z.leb_le. vm_compute. reflexivity.
  - apply C3_request_ids_fresh. apply Z.leb_le. vm_compute. reflexivity.
Defined.

(** C9: a non-clean close within the budget, with no reconnection already
    scheduled, increments the attempt counter to [n] and schedules the
    reconnection after [min(reconnectDelay * 2^(n-1), maxReconnectDelay)];
    every successful open resets the counter to 0, so the next close
    schedules attempt 1 again. *)
Theorem C9_reconnect_backoff f s code :
  reconnectTimer s = None -> code <> 1000 ->
  reconnectAttempts s < maxReconnectAttempts (cfg s) ->
  let s' := final f [SockClose code] s in
  reconnectAttempts s' = reconnectAttempts s + 1 /\
  reconnectTimer s' =
    Some (Z.min (reconnectDelay (cfg s) * 2 ^ (reconnectAttempts s' - 1))
                (maxReconnectDelay (cfg s))) /\
  connectionState s' = RECONNECTING /\
  (forall s0, reconnectAttempts (final f [SockOpen] s0) = 0).
Proof.
  intros Ht Hc Ha. destruct s as [c st w a q hs tm nt rc rt hk]; cbn in *.
  subst rt. unfold final; cbn. unfold_M; cbn.
  split; [|split; [|split]].
  1-3: destruct (onDisconnect hk); cbn;
       rewrite (proj2 (Z.eqb_neq _ _) Hc), (proj2 (Z.ltb_lt _ _) Ha); cbn;
       try reflexivity; do 2 f_equal; lia.
  intros s0. unfold final; cbn [run step]. unfold on_open; unfold_M.
  unfold flushMessageQueue, isConnected. cbn -[flush_loop].
  destruct (ws s0) as [w0|]; cbn -[flush_loop].
  - destruct (messageQueue s0) as [|r q0]; cbn -[flush_loop].
    + destruct (onConnect (eventHandlers s0)); reflexivity.
    + destruct (flush_loop f (r :: q0)); cbn.
      destruct (onConnect (eventHandlers s0)); reflexivity.
  - destruct (onConnect (eventHandlers s0)); reflexivity.
Qed.

Lemma C9_reconnect_backoff_witness :
  let s := final writes_ok [Connect; SockOpen] (init defaultConfig) in
  let s' := final writes_ok [SockClose 1006] s in
  reconnectAttempts s' = reconnectAttempts s + 1 /\
  reconnectTimer s' =
    Some (Z.min (reconnectDelay (cfg s) * 2 ^ (reconnectAttempts s' - 1))
                (maxReconnectDelay (cfg s))) /\
  connectionState s' = RECONNECTING /\
  (forall s0, reconnectAttempts (final writes_ok [SockOpen] s0) = 0).
Proof.
  apply C9_reconnect_backoff.
  - vm_compute. reflexivity.
  - discriminate.
  - vm_compute. reflexivity.
Defined.

(** C10: a request sent while the socket is not open is queued and its
    timer runs; when the timer fires the caller is rejected with a timeout
    error and the handler is removed, but the request stays queued; the next
    [connect] and open write it to the server (all writes succeeding), and
    the server's reply for its id is then dispatched as a notification. *)
Theorem C10_timed_out_request_still_replayed f s r resp :
  ws s <> Some WS_OPEN -> connectionState s <> CONNECTED ->
  (forall q, f q = true) -> res_id resp = req_id r ->
  let h := nextTimer s in
  let s1 := final f [Send r] s in
  let s2 := final f [RequestTimeout h] s1 in
  let s3 := final f [Connect; SockOpen] s2 in
  outputs f [Send r] s = [] /\
  messageQueue s1 = messageQueue s ++ [r] /\
  outputs f [RequestTimeout h] s1 = [OReject (req_id r) (ErrTimeout (req_id r))] /\
  responseHandlers s2 !! req_id r = None /\
  messageQueue s2 = messageQueue s ++ [r] /\
  In (OWrite r) (outputs f [Connect; SockOpen] s2) /\
  messageQueue s3 = [] /\
  outputs f [SockMessage resp] s3 =
    (if onMessage (eventHandlers s) then [OOnMessage resp] else []) ++
    [ONotification (res_method resp)].
Proof.
  intros Hw Hst Hf Hid.
  assert (Hq : forall l, Forall (fun x => f x = true) l).
  { intros l. apply List.Forall_forall. auto. }
  destruct s as [c st w a q hs tm nt rc rt hk]; cbn -[In] in *.
  unfold outputs, final; cbn -[In]. unfold_M; cbn -[flush_loop In].
  destruct (is_open w) eqn:Ew.
  { destruct w as [[]|]; cbn in Ew; try discriminate. done. }
  cbn -[flush_loop In]. rewrite !lookup_insert_eq. cbn -[flush_loop In].
  destruct (CState_eqb st CONNECTED) eqn:Es.
  { destruct st; cbn in Es; try discriminate. done. }
  cbn -[flush_loop In].
  destruct (q ++ [r]) as [|r0 q0] eqn:Eq.
  { destruct q; discriminate. }
  rewrite (flush_loop_all_ok f (r0 :: q0) (Hq _)). cbn -[In].
  assert (HIn : In (OWrite r) (map OWrite (r0 :: q0))).
  { rewrite <- Eq. apply in_map, in_or_app. right. by left. }
  cbn in HIn.
  rewrite <- Eq.
  destruct hk as [[] ? []]; cbn -[In]; rewrite ?Hid, ?lookup_delete_eq;
    cbn -[In]; rewrite ?app_nil_r; repeat split;
    (destruct HIn as [HIn|HIn];
     [ left; exact HIn | right; apply (in_or_app (map OWrite q0)); left; exact HIn ]).
Qed.

Lemma C10_timed_out_request_still_replayed_witness :
  let s := init defaultConfig in
  let resp := mkResponse 1 "get_ledger_balances" None in
  let h := nextTimer s in
  let s1 := final writes_ok [Send ledger_req] s in
  let s2 := final writes_ok [RequestTimeout h] s1 in
  let s3 := final writes_ok [Connect; SockOpen] s2 in
  outputs writes_ok [Send ledger_req] s = [] /\
  messageQueue s1 = messageQueue s ++ [ledger_req] /\
  outputs writes_ok [RequestTimeout h] s1 =
    [OReject (req_id ledger_req) (ErrTimeout (req_id ledger_req))] /\
  responseHandlers s2 !! req_id ledger_req = None /\
  messageQueue s2 = messageQueue s ++ [ledger_req] /\
  In (OWrite ledger_req) (outputs writes_ok [Connect; SockOpen] s2) /\
  messageQueue s3 = [] /\
  outputs writes_ok [SockMessage resp] s3 =
    (if onMessage (eventHandlers s) then [OOnMessage resp] else []) ++
    [ONotification (res_method resp)].
Proof.
  apply C10_timed_out_request_still_replayed.
  - discriminate.
  - discriminate.
  - reflexivity.
  - reflexivity.
Defined.

(** ** [toSmallest] *)

Import Amount.

Lemma drop_while_id p (s : jstring) :
  Forall (fun c => p c = false) s -> drop_while p s = s.
Proof. destruct 1 as [|c s Hc _]; cbn; [done|]. by rewrite Hc. Qed.

Lemma trim_id (s : jstring) :
  Forall (fun c => is_js_space c = false) s -> trim s = s.
Proof.
  intros H. unfold trim. rewrite (drop_while_id _ s H).
  rewrite drop_while_id; [apply rev_involutive|].
  apply List.Forall_forall. intros c Hc%in_rev.
  exact (proj1 (List.Forall_forall _ _) H c Hc).
Qed.

Lemma split_no_sep sep (s : jstring) :
  Forall (fun c => Ascii.eqb c sep = false) s -> split sep s = [s].
Proof.
  induction 1 as [|c s Hc _ IH]; cbn; [done|]. by rewrite Hc, IH.
Qed.

Lemma split_at_sep sep (w r : jstring) :
  Forall (fun c => Ascii.eqb c sep = false) w ->
  split sep (w ++ sep :: r) = w :: split sep r.
Proof.
  induction 1 as [|c w Hc _ IH]; cbn.
  - by rewrite Ascii.eqb_refl.
  - by rewrite Hc, IH.
Qed.

Lemma is_digit_spec c :
  is_digit c = true -> (48 <= nat_of_ascii c <= 57)%nat.
Proof. unfold is_digit. intros [H1 H2]%andb_prop. apply Nat.leb_le in H1, H2. lia. Qed.

Lemma digit_not_space c : is_digit c = true -> is_js_space c = false.
Proof.
  intros H%is_digit_spec. unfold is_js_space.
  destruct (nat_of_ascii c) as [|n] eqn:E; [lia|].
  do 57 (destruct n as [|n]; [try lia; reflexivity|]). lia.
Qed.

Lemma digit_not_dot c : is_digit c = true -> Ascii.eqb c char_dot = false.
Proof.
  intros H%is_digit_spec. apply Ascii.eqb_neq. intros ->. cbv in H. lia.
Qed.

Lemma all_digits_Forall (s : jstring) : all_digits s = true -> Forall (fun c => is_digit c = true) s.
Proof. intros H. apply List.Forall_forall. intros c Hc. exact (proj1 (forallb_forall _ _) H c Hc). Qed.

Lemma digits_value_acc_shift acc (s : jstring) :
  digits_value_acc acc s = acc * 10 ^ Z.of_nat (length s) + digits_value s.
Proof.
  unfold digits_value. revert acc. induction s as [|c s IH]; intros acc; cbn -[Z.pow].
  - lia.
  - rewrite IH, (IH (0 * 10 + digit_value c)).
    rewrite Nat2Z.inj_succ, Z.pow_succ_r by lia. lia.
Qed.

Lemma digits_value_app (a b : jstring) :
  digits_value (a ++ b) = digits_value a * 10 ^ Z.of_nat (length b) + digits_value b.
Proof.
  assert (H : forall acc, digits_value_acc acc (a ++ b) =
                          digits_value_acc (digits_value_acc acc a) b).
  { induction a as [|c a IH]; intros acc; cbn; auto. }
  unfold digits_value at 1. rewrite H. apply digits_value_acc_shift.
Qed.

Lemma digits_value_zero_cons (s : jstring) :
  digits_value (char_0 :: s) = digits_value s.
Proof. reflexivity. Qed.

Lemma digits_value_strip (s : jstring) :
  digits_value (strip_leading_zeros s) = digits_value s.
Proof.
  induction s as [|c s IH]; [done|]. unfold strip_leading_zeros; cbn [drop_while].
  destruct (Ascii.eqb c char_0) eqn:E; [|done].
  apply Ascii.eqb_eq in E as ->. rewrite digits_value_zero_cons. exact IH.
Qed.

Lemma digits_value_or_zero (s : jstring) : digits_value (or_zero s) = digits_value s.
Proof. by destruct s. Qed.

Lemma digits_value_zeros n : digits_value (repeat char_0 n) = 0.
Proof. induction n as [|n IH]; [done|]. cbn [repeat]. by rewrite digits_value_zero_cons. Qed.

Lemma digits_value_bounds (s : jstring) :
  all_digits s = true -> 0 <= digits_value s < 10 ^ Z.of_nat (length s).
Proof.
  induction s as [|c s IH] using rev_ind; [cbn; lia|].
  unfold all_digits. rewrite forallb_app. cbn. rewrite andb_true_r.
  intros [Hs Hc%is_digit_spec]%andb_prop.
  specialize (IH Hs). rewrite digits_value_app, length_app.
  replace (digits_value [c]) with (digit_value c) by reflexivity.
  unfold digit_value. cbn [length].
  rewrite Nat2Z.inj_add, Z.pow_add_r by lia. cbn -[Z.pow]. lia.
Qed.

Lemma strip_all_digits (s : jstring) :
  all_digits s = true -> all_digits (strip_leading_zeros s) = true.
Proof.
  induction s as [|c s IH]; [done|]. cbn. intros [Hc Hs]%andb_prop.
  destruct (Ascii.eqb c char_0); [auto|]. cbn. by rewrite Hc, Hs.
Qed.

Lemma or_zero_all_digits (s : jstring) :
  all_digits s = true -> all_digits (or_zero s) = true.
Proof. by destruct s. Qed.

Lemma canonical_strip (s : jstring) :
  canonical (or_zero (strip_leading_zeros s)) = true.
Proof.
  induction s as [|c s IH]; [done|]. unfold strip_leading_zeros in *; cbn [drop_while].
  destruct (Ascii.eqb c char_0) eqn:E; [exact IH|]. cbn. by rewrite E.
Qed.

Lemma firstn_repeat_min {A} (x : A) n m :
  firstn n (repeat x m) = repeat x (Nat.min n m).
Proof.
  revert m. induction n as [|n IH]; intros [|m]; cbn; auto. by rewrite IH.
Qed.

(** The padded or truncated fraction: its value is [floor(F * 10^d / 10^k)]. *)
Lemma frac_padded_value (F : jstring) (d : nat) :
  all_digits F = true ->
  digits_value (firstn d (F ++ repeat char_0 d)) =
    digits_value F * 10 ^ Z.of_nat d / 10 ^ Z.of_nat (length F).
Proof.
  intros HF. set (k := length F).
  destruct (Nat.le_gt_cases k d) as [Hle|Hgt].
  - rewrite firstn_app, firstn_all2 by lia. fold k.
    rewrite firstn_repeat_min, Nat.min_l by lia.
    rewrite digits_value_app, digits_value_zeros, repeat_length, Z.add_0_r.
    replace (Z.of_nat d) with (Z.of_nat (d - k) + Z.of_nat k) by lia.
    rewrite Z.pow_add_r by lia. rewrite Z.mul_assoc, Z.div_mul; [done|].
    apply Z.pow_nonzero; lia.
  - rewrite firstn_app. fold k. replace (d - k)%nat with 0%nat by lia.
    cbn [firstn]. rewrite app_nil_r.
    pose proof (firstn_skipn d F) as Hfs.
    assert (Hlen : length (firstn d F) = d) by (rewrite length_firstn; lia).
    assert (Hsk : length (skipn d F) = (k - d)%nat) by (rewrite length_skipn; lia).
    assert (Hsd : all_digits (skipn d F) = true).
    { unfold all_digits. rewrite <- Hfs in HF. unfold all_digits in HF.
      rewrite forallb_app in HF. by apply andb_prop in HF as [_ ->]. }
    pose proof (digits_value_bounds _ Hsd) as Hb. rewrite Hsk in Hb.
    rewrite <- Hfs at 2. rewrite digits_value_app, Hsk.
    replace (10 ^ Z.of_nat k) with (10 ^ Z.of_nat d * 10 ^ Z.of_nat (k - d)).
    2: { rewrite <- Z.pow_add_r by lia. f_equal. lia. }
    rewrite <- Z.div_div, Z.div_mul by (try apply Z.pow_nonzero; lia).
    rewrite Z.add_comm, Z.div_add by (apply Z.pow_nonzero; lia).
    rewrite Z.div_small by lia. lia.
Qed.

Lemma all_digits_app (a b : jstring) :
  all_digits (a ++ b) = all_digits a && all_digits b.
Proof. apply forallb_app. Qed.

Lemma all_digits_firstn n (s : jstring) :
  all_digits s = true -> all_digits (firstn n s) = true.
Proof.
  revert n. induction s as [|c s IH]; intros [|n]; cbn; auto.
  intros [-> Hs]%andb_prop. cbn. auto.
Qed.

Lemma all_digits_zeros n : all_digits (repeat char_0 n) = true.
Proof. induction n; cbn; auto. Qed.

Lemma literal_pieces (whole : jstring) (frac : option jstring) :
  all_digits whole = true -> all_digits (default [] frac) = true ->
  split char_dot (trim (decimal_literal whole frac)) =
    match frac with None => [whole] | Some f => [whole; f] end.
Proof.
  intros Hw Hf.
  apply all_digits_Forall in Hw, Hf.
  assert (Hnd : forall l : jstring, Forall (fun c => is_digit c = true) l ->
                  Forall (fun c => Ascii.eqb c char_dot = false) l).
  { intros l Hl. eapply List.Forall_impl; [|exact Hl]. apply digit_not_dot. }
  rewrite trim_id.
  - unfold decimal_literal. destruct frac as [f|]; cbn [default] in *.
    + rewrite split_at_sep by auto. by rewrite split_no_sep by auto.
    + rewrite app_nil_r. by apply split_no_sep, Hnd.
  - unfold decimal_literal. apply List.Forall_app. split.
    + eapply List.Forall_impl; [|exact Hw]. apply digit_not_space.
    + destruct frac as [f|]; constructor; [reflexivity|].
      eapply List.Forall_impl; [|exact Hf]. apply digit_not_space.
Qed.

(** C4: on a well-formed non-negative decimal literal [whole] or
    [whole.frac] (digit strings, [whole] possibly empty) and any [d],
    [toSmallest] keeps the integer part (leading zeros stripped), pads the
    fraction with zeros or truncates it to exactly [d] digits, concatenates
    the two, and the result is the canonical decimal spelling of
    [floor(amount * 10^d)], where [amount = (W * 10^k + F) / 10^k] for the
    [k]-digit fraction [F]. *)
Theorem C4_toSmallest_floor (whole : jstring) (frac : option jstring) (d : nat) :
  all_digits whole = true -> all_digits (default [] frac) = true ->
  let F := default [] frac in
  let out := toSmallest (decimal_literal whole frac) d in
  out = or_zero (strip_leading_zeros
          (or_zero (strip_leading_zeros whole) ++ firstn d (F ++ repeat char_0 d))) /\
  all_digits out = true /\ canonical out = true /\
  digits_value out =
    (digits_value whole * 10 ^ Z.of_nat (length F) + digits_value F)
      * 10 ^ Z.of_nat d / 10 ^ Z.of_nat (length F).
Proof.
  intros Hw Hf F out.
  assert (Hout : out = or_zero (strip_leading_zeros
          (or_zero (strip_leading_zeros whole) ++ firstn d (F ++ repeat char_0 d)))).
  { unfold out, toSmallest. rewrite (literal_pieces whole frac Hw Hf).
    by destruct frac. }
  split; [exact Hout|]. rewrite Hout.
  fold F in Hf.
  assert (Hpad : all_digits (firstn d (F ++ repeat char_0 d)) = true).
  { apply all_digits_firstn. rewrite all_digits_app, Hf. apply all_digits_zeros. }
  split; [|split].
  - apply or_zero_all_digits, strip_all_digits. rewrite all_digits_app, Hpad, andb_true_r.
    apply or_zero_all_digits, strip_all_digits, Hw.
  - apply canonical_strip.
  - rewrite digits_value_or_zero, digits_value_strip, digits_value_app.
    rewrite digits_value_or_zero, digits_value_strip, frac_padded_value by exact Hf.
    rewrite length_firstn, length_app, repeat_length, Nat.min_l by lia.
    rewrite Z.mul_add_distr_r.
    replace (digits_value whole * 10 ^ Z.of_nat (length F) * 10 ^ Z.of_nat d)
      with (digits_value whole * 10 ^ Z.of_nat d * 10 ^ Z.of_nat (length F)) by ring.
    rewrite Z.div_add_l by (apply Z.pow_nonzero; lia). reflexivity.
Qed.

Lemma C4_toSmallest_floor_witness :
  let whole := list_ascii_of_string "1" in
  let frac := Some (list_ascii_of_string "23456") in
  let F := default [] frac in
  let out := toSmallest (decimal_literal whole frac) 3 in
  out = or_zero (strip_leading_zeros
          (or_zero (strip_leading_zeros whole) ++ firstn 3 (F ++ repeat char_0 3))) /\
  all_digits out = true /\ canonical out = true /\
  digits_value out =
    (digits_value whole * 10 ^ Z.of_nat (length F) + digits_value F)
      * 10 ^ Z.of_nat 3 / 10 ^ Z.of_nat (length F).
Proof. apply C4_toSmallest_floor; reflexivity. Defined.

(** Truncation, not rounding: "0.999" at 2 decimals gives "99". *)
Example toSmallest_truncates :
  toSmallest (list_ascii_of_string "0.999") 2 = list_ascii_of_string "99".
Proof. reflexivity. Qed.

(* ------------------------------------------------------------------------- *)
(** ** sendCrypto *)
(* ------------------------------------------------------------------------- *)

Import Send.

Lemma js_BigInt_numeric (s : jstring) :
  is_numeric s = true -> js_BigInt s = Some (digits_value s).
Proof.
  intros H. unfold js_BigInt.
  rewrite trim_id.
  2:{ eapply List.Forall_impl; [exact digit_not_space|]. apply all_digits_Forall.
      destruct s; [discriminate|exact H]. }
  destruct s as [|c rest]; [discriminate|].
  assert (Hc : is_digit c = true) by (cbn in H; apply andb_prop in H; tauto).
  assert (Hne : forall d, is_digit d = false -> Ascii.eqb c d = false)
    by (intros d Hd; apply Ascii.eqb_neq; intros ->; congruence).
  rewrite (Hne "-"%char), (Hne "+"%char) by reflexivity.
  destruct rest as [|x r].
  - destruct c as [[] [] [] [] [] [] [] []]; try discriminate Hc; reflexivity.
  - assert (Hx : is_digit x = true)
      by (cbn in H; apply andb_prop in H as [_ H]; apply andb_prop in H; tauto).
    assert (Hxne : forall d, is_digit d = false -> Ascii.eqb x d = false)
      by (intros d Hd; apply Ascii.eqb_neq; intros ->; congruence).
    rewrite H.
    destruct c as [[] [] [] [] [] [] [] []]; try discriminate Hc;
      cbn -[digits_value Ascii.eqb]; rewrite ?Hxne by reflexivity; reflexivity.
Qed.

Lemma native_balance_throws :
  native_balance LThrows = (js "0", js "unknown").
Proof. reflexivity. Qed.

Lemma token_balance_unknown wdk rpc :
  wdk = NoWdkMethod \/ wdk = WdkGetTokenBalance LThrows \/ wdk = WdkBalanceOf LThrows ->
  rpc = RpcUnavailable \/ rpc = RpcThrows ->
  token_balance wdk rpc ZThrows = (js "0", js "unknown").
Proof. intros [->|[->| ->]] [->| ->]; reflexivity. Qed.

Lemma precheck_zero_fails src requested :
  is_numeric requested = true -> 0 < digits_value requested ->
  precheck (js "0") src requested =
    Some (Unprocessable (insufficient_message (js "0") src requested)).
Proof.
  intros Hn Hpos. unfold precheck.
  change (is_numeric (js "0")) with true. change (digits_value (js "0")) with 0.
  rewrite (js_BigInt_numeric _ Hn).
  by rewrite (proj2 (Z.ltb_lt _ _) Hpos).
Qed.

Lemma txHash_of_spec r : txHash_of r = hash_rule_spec r.
Proof. by destruct r. Qed.

(** C5 *)
(** Claim C5 (code bug).  The pre-check starts from [availableSmallest =
    '0'], a digit string, so when no balance source answers (the native
    [getBalance] throws; or on the token path the WDK lookup is absent or
    throws, the RPC fallback is unavailable or throws, and the indexer
    fallback throws) the availability is unknown but the check still
    compares [0] with the request: every positive numeric request fails with
    [Insufficient balance. Available: 0 (unknown), ...] and no transfer entry
    point is called, instead of proceeding as for an unknown balance. *)
Theorem C5_unknown_balance_blocks_send chain requested (a : NativeSigner)
    (t : TokenSigner) wdk rpc :
  is_numeric requested = true -> 0 < digits_value requested ->
  wdk = NoWdkMethod \/ wdk = WdkGetTokenBalance LThrows \/ wdk = WdkBalanceOf LThrows ->
  rpc = RpcUnavailable \/ rpc = RpcThrows ->
  let err := Unprocessable (insufficient_message (js "0") (js "unknown") requested) in
  sendCrypto_native chain requested LThrows a = ([], inl err) /\
  sendCrypto_token requested wdk rpc ZThrows t = ([], inl err).
Proof.
  intros Hn Hpos Hw Hr err. split.
  - unfold sendCrypto_native. rewrite native_balance_throws.
    by rewrite precheck_zero_fails.
  - unfold sendCrypto_token. rewrite (token_balance_unknown _ _ Hw Hr).
    by rewrite precheck_zero_fails.
Qed.

Lemma C5_unknown_balance_blocks_send_witness :
  let requested := js "1000" in
  let a := mkNativeSigner (Some (Returns (JStr "0xabc"))) None in
  let t := mkTokenSigner (Some (Returns (JStr "0xdef"), Throws "unused")) None None None in
  let err := Unprocessable (insufficient_message (js "0") (js "unknown") requested) in
  is_numeric requested = true /\ 0 < digits_value requested /\
  sendCrypto_native "ethereum" requested LThrows a = ([], inl err) /\
  sendCrypto_token requested NoWdkMethod RpcThrows ZThrows t = ([], inl err).
Proof.
  cbv zeta. split; [reflexivity|]. split; [vm_compute; reflexivity|].
  apply (C5_unknown_balance_blocks_send "ethereum" (js "1000")
           (mkNativeSigner (Some (Returns (JStr "0xabc"))) None)
           (mkTokenSigner (Some (Returns (JStr "0xdef"), Throws "unused")) None None None)
           NoWdkMethod RpcThrows);
    [reflexivity | vm_compute; reflexivity | left; reflexivity | right; reflexivity].
Defined.

(** C6 *)
(** Claim C6 (counterexample).  When an entry point resolves to an object
    with neither a [hash] nor a [txHash] field, or to a number, the code
    falls back to [String(result)] and returns that as the transaction
    hash: ["[object Object]"], resp. ["7"]. *)
Lemma C6_hashless_result_is_stringified :
  let obj := mkTokenSigner (Some (Returns (JObj JUndefined JUndefined), Throws "unused"))
               None None None in
  let num := mkTokenSigner None (Some (Returns (JNum 7))) None None in
  token_dispatch obj = ([TransferRecipient], DOk (JStr "[object Object]")) /\
  sendCrypto_token (js "1000") (WdkGetTokenBalance (LReturns (js "5000"))) RpcUnavailable
    ZThrows obj = ([TransferRecipient], inr "[object Object]"%string) /\
  sendCrypto_token (js "1000") (WdkGetTokenBalance (LReturns (js "5000"))) RpcUnavailable
    ZThrows num = ([SendToken], inr "7"%string).
Proof. split; [|split]; vm_compute; reflexivity. Qed.

(** Claim C6 (amended).  The token dispatch calls the entry points
    [transfer({token, recipient, amount})], [transfer({token, to, amount})],
    [sendToken], [transferToken] and the generic [send] in this order,
    skipping the ones the account lacks and stopping at the first that
    returns; the hash is the result when it is a string, otherwise its
    [hash] field when truthy, otherwise its [txHash] field when truthy,
    otherwise [String(result)]; a falsy hash, or no entry point returning,
    is "not supported", except that a throwing generic [send] propagates
    its own error.  The send then succeeds exactly with a non-empty string
    hash; any other hash, and "not supported", fail with a
    service-unavailable error.  Once the balance pre-check passes, the
    amount is converted with [BigInt] before any entry point: when that
    throws, no entry point is called and the conversion error goes through
    the error mapping of the transfer. *)
Theorem C6_token_dispatch_order_and_hash (a : TokenSigner) :
  token_dispatch a = token_dispatch_spec a /\
  (forall h s, finish (DOk h) = inr s <-> h = JStr s /\ s <> ""%string) /\
  (forall h, (forall s, finish (DOk h) <> inr s) ->
     finish (DOk h) = inl (ServiceUnavailable
       "Transaction failed: Transaction submitted but no transaction hash returned")) /\
  finish (DThrow not_supported) =
    inl (ServiceUnavailable ("Transaction failed: " ++ not_supported)) /\
  (forall requested wdk rpc zer,
     precheck (token_balance wdk rpc zer).1 (token_balance wdk rpc zer).2 requested = None ->
     sendCrypto_token requested wdk rpc zer a =
       match js_BigInt requested with
       | None => ([], inl (classify (bigint_error requested)))
       | Some _ => ((token_dispatch_spec a).1, finish (token_dispatch_spec a).2)
       end).
Proof.
  assert (Hd : token_dispatch a = token_dispatch_spec a).
  { destruct a as [tr st tt sd].
    destruct tr as [[[m1|r1] [m2|r2]]|], st as [[m3|r3]|], tt as [[m4|r4]|],
      sd as [[m5|r5]|];
      unfold token_dispatch, token_dispatch_spec; cbn -[txHash_of hash_rule_spec truthy];
      rewrite ?txHash_of_spec;
      repeat case_match; reflexivity. }
  split; [exact Hd|]. split; [|split; [|split]].
  - intros h s. split.
    + destruct h as [| |s'| |]; cbn; try discriminate.
      destruct (String.eqb_spec s' ""); [discriminate|]. intros [= <-]. auto.
    + intros [-> Hs]. cbn. by apply String.eqb_neq in Hs as ->.
  - intros h Hh. destruct h as [| |s'| |]; try reflexivity.
    destruct (String.eqb_spec s' "") as [->|Hs]; [reflexivity|].
    exfalso. apply (Hh s'). cbn. by apply String.eqb_neq in Hs as ->.
  - reflexivity.
  - intros requested wdk rpc zer Hp. unfold sendCrypto_token.
    destruct (token_balance wdk rpc zer) as [avail src]. cbn in Hp. rewrite Hp.
    destruct (js_BigInt requested); [|reflexivity].
    rewrite Hd. by destruct (token_dispatch_spec a).
Qed.

Lemma C6_token_dispatch_order_and_hash_witness :
  let a := mkTokenSigner (Some (Returns (JStr "0xabc"), Throws "unused")) None None None in
  sendCrypto_token (js "5abc000000") (WdkGetTokenBalance (LReturns (js "5000")))
    RpcUnavailable ZThrows a =
    ([], inl (ServiceUnavailable "Transaction failed: Cannot convert 5abc000000 to a BigInt")) /\
  sendCrypto_token (js "1000") (WdkGetTokenBalance (LReturns (js "5000")))
    RpcUnavailable ZThrows a = ([TransferRecipient], inr "0xabc"%string).
Proof.
  intros a. destruct (C6_token_dispatch_order_and_hash a) as (_ & _ & _ & _ & H).
  split; (rewrite H; [vm_compute; reflexivity | vm_compute; reflexivity]).
Defined.


(* ------------------------------------------------------------------------- *)
(** ** ChannelService *)
(* ------------------------------------------------------------------------- *)

Import Chan.

Lemma decode_be_snoc l b : decode_be (l ++ [b]) = decode_be l * 256 + b.
Proof. unfold decode_be. by rewrite fold_left_app. Qed.

Lemma be_bytes_length n x : length (be_bytes n x) = n.
Proof.
  revert x. induction n as [|n IH]; intros x; [done|].
  cbn [be_bytes]. rewrite length_app, IH. cbn. lia.
Qed.

Lemma decode_be_bytes n x : decode_be (be_bytes n x) = x mod 2 ^ (8 * Z.of_nat n).
Proof.
  revert x. induction n as [|n IH]; intros x.
  - cbn. by rewrite Z.mod_1_r.
  - cbn [be_bytes]. rewrite decode_be_snoc, IH.
    replace (8 * Z.of_nat (S n)) with (8 + 8 * Z.of_nat n) by lia.
    rewrite Z.pow_add_r by lia.
    rewrite Z.rem_mul_r by (try apply Z.pow_pos_nonneg; lia).
    change (2 ^ 8) with 256. lia.
Qed.

Lemma word_inj x y :
  0 <= x < 2 ^ 256 -> 0 <= y < 2 ^ 256 -> word x = word y -> x = y.
Proof.
  intros Hx Hy H. apply (f_equal decode_be) in H. unfold word in H.
  rewrite !decode_be_bytes in H. change (8 * Z.of_nat 32) with 256 in H.
  by rewrite !Z.mod_small in H.
Qed.

Lemma word_length x : length (word x) = 32%nat.
Proof. apply be_bytes_length. Qed.

Lemma in_range_spec bits x : in_range bits x = true <-> 0 <= x < 2 ^ bits.
Proof. unfold in_range. rewrite andb_true_iff, Z.leb_le, Z.ltb_lt. lia. Qed.

Lemma in_range_160_256 x : in_range 160 x = true -> 0 <= x < 2 ^ 256.
Proof.
  intros H%in_range_spec. split; [lia|].
  apply (Z.lt_le_trans _ (2 ^ 160)); [lia|]. apply Z.pow_le_mono_r; lia.
Qed.

Lemma encode_channel_some c bytes :
  encode_channel c = Some bytes ->
  in_range 160 (fst (participants c)) = true /\ in_range 160 (snd (participants c)) = true /\
  in_range 160 (adjudicator c) = true /\ in_range 256 (challenge c) = true /\
  in_range 256 (nonce c) = true /\
  bytes = word (fst (participants c)) ++ word (snd (participants c)) ++
          word (adjudicator c) ++ word (challenge c) ++ word (nonce c).
Proof.
  destruct c as [[p0 p1] adj ch n]. unfold encode_channel. cbn.
  destruct (in_range 160 p0), (in_range 160 p1), (in_range 160 adj),
    (in_range 256 ch), (in_range 256 n); cbn; intros; simplify_eq; auto 10.
Qed.

(** C7 *)
(** Claim C7.  [createChannel] either fails (the channel tuple cannot be
    ABI-encoded, or there is no custody contract for the chain) or submits
    [create] to the chain's custody contract with the state [INITIALIZE],
    version [0], data [0x] and allocations [(0, initialDeposit or 0),
    (1, 0)] (for every optional deposit, [0n] included), with the
    signatures [[user_signature, server_signature]] of the clearing node's
    answer, and returns that same state; [resizeChannel] and
    [closeChannel] submit the signatures in the same [user, server] order. *)
Theorem C7_create_state_and_signature_order keccak custody chainId dep (cd : CreateData)
    chId rChain (rd : UpdateData) cChain (xd : UpdateData) :
  match createChannel keccak custody chainId dep cd with
  | inr (call, cws) =>
      custody chainId = Some (call_address call) /\
      call_functionName call = "create"%string /\
      call_state call = mkStateArg INITIALIZE 0 "0x"
                          [mkAllocation 0 (default 0 dep); mkAllocation 1 0] /\
      call_signatures call = [cd_user_signature cd; cd_server_signature cd] /\
      cws_state cws = mkChannelState INITIALIZE 0 "0x" [(0, default 0 dep); (1, 0)] /\
      call_channelId call = cws_channelId cws
  | inl _ =>
      computeChannelId keccak (parse_channel (cd_channel cd)) = None \/
      custody chainId = None
  end /\
  match resizeChannel custody chId rChain rd with
  | inr (call, _) =>
      call_functionName call = "resize"%string /\
      call_signatures call = [ud_user_signature rd; ud_server_signature rd]
  | inl _ => custody rChain = None
  end /\
  match closeChannel custody chId cChain xd with
  | inr (call, _) =>
      call_functionName call = "close"%string /\
      call_signatures call = [ud_user_signature xd; ud_server_signature xd]
  | inl _ => custody cChain = None
  end.
Proof.
  split; [|split].
  - unfold createChannel.
    destruct (computeChannelId keccak (parse_channel (cd_channel cd))) as [cid|];
      [|by left].
    destruct (custody chainId) as [addr|] eqn:Hc; [|by right].
    destruct dep as [d|]; cbn; [|by repeat split].
    destruct (Z.eqb_spec d 0) as [->|]; cbn; by repeat split.
  - unfold resizeChannel. by destruct (custody rChain).
  - unfold closeChannel. by destruct (custody cChain).
Qed.

(** C8 *)
(** Claim C8.  Whenever the channel tuple [(participants[2], adjudicator,
    challenge, nonce)] is ABI-encodable, its encoding is the five 32-byte
    big-endian words of the tuple in order (160 bytes), the channel id is
    [keccak256] of it, and a channel has that same encoding exactly when it
    has the same tuple: the id depends on the tuple and on nothing else. *)
Theorem C8_channel_id_is_hash_of_tuple keccak (c c' : Channel) (bytes : list Z) :
  encode_channel c = Some bytes ->
  computeChannelId keccak c = Some (keccak bytes) /\
  bytes = word (fst (participants c)) ++ word (snd (participants c)) ++
          word (adjudicator c) ++ word (challenge c) ++ word (nonce c) /\
  length bytes = 160%nat /\
  (encode_channel c' = Some bytes <-> c' = c).
Proof.
  intros H. pose proof (encode_channel_some _ _ H) as (H0 & H1 & Ha & Hch & Hn & ->).
  split; [unfold computeChannelId; by rewrite H|].
  split; [done|]. split; [by rewrite !length_app, !word_length|].
  split; [|by intros ->].
  intros H'. apply encode_channel_some in H' as (H0' & H1' & Ha' & Hch' & Hn' & E).
  apply in_range_160_256 in H0, H1, Ha, H0', H1', Ha'.
  apply in_range_spec in Hch, Hn, Hch', Hn'.
  apply app_inj_1 in E as [E0 E]; [|by rewrite !word_length].
  apply app_inj_1 in E as [E1 E]; [|by rewrite !word_length].
  apply app_inj_1 in E as [Ea E]; [|by rewrite !word_length].
  apply app_inj_1 in E as [Ech En]; [|by rewrite !word_length].
  apply word_inj in E0, E1, Ea, Ech, En; try done.
  destruct c as [[p0 p1] adj ch n], c' as [[q0 q1] adj' ch' n']; cbn in *.
  by subst.
Qed.

Lemma C8_channel_id_is_hash_of_tuple_witness :
  let c := mkChannel (1, 2) 3 86400 7 in
  encode_channel c = Some (word 1 ++ word 2 ++ word 3 ++ word 86400 ++ word 7) /\
  computeChannelId (fun l => decode_be (firstn 1 l)) c =
    Some (decode_be (firstn 1 (word 1 ++ word 2 ++ word 3 ++ word 86400 ++ word 7))).
Proof.
  cbv zeta. split; [vm_compute; reflexivity|].
  apply (C8_channel_id_is_hash_of_tuple (fun l => decode_be (firstn 1 l))
           (mkChannel (1, 2) 3 86400 7) (mkChannel (1, 2) 3 86400 7)).
  vm_compute. reflexivity.
Defined.

(* ------------------------------------------------------------------------- *)
(** ** Transport: runs from a fresh manager *)
(* ------------------------------------------------------------------------- *)

Section Runs.
Variable f : RPCRequest -> bool.
Ltac unfold_set := unfold set_connectionState, set_ws, set_reconnectAttempts,
  set_messageQueue, set_responseHandlers, set_timers, set_nextTimer,
  set_requestIdCounter, set_reconnectTimer, set_eventHandlers in *.
Ltac ws_split :=
  repeat (cbn -[flush_loop]; match goal with
  | |- context [CState_eqb ?st _] => is_var st; destruct st
  | |- context [is_open ?w] => is_var w; destruct w as [[]|]
  | |- context [match ?w with Some _ => _ | None => _ end] => is_var w; destruct w
  | |- context [match ?q with [] => _ | _ :: _ => _ end] => is_var q; destruct q
  | |- context [onConnect ?hk] => is_var hk; destruct hk as [[] [] []]
  | |- context [onDisconnect ?hk] => is_var hk; destruct hk as [[] [] []]
  | |- context [onMessage ?hk] => is_var hk; destruct hk as [[] [] []]
  | |- context [(?x =? ?y)%Z] => destruct (Z.eqb_spec x y)
  | |- context [(?x <? ?y)%Z] => destruct (Z.ltb_spec x y)
  | |- context [(?x <=? ?y)%Z] => destruct (Z.leb_spec x y)
  | |- context [flush_loop ?g ?q] => destruct (flush_loop g q) eqn:?
  | |- context [?m !! ?k] => destruct (m !! k) eqn:?
  | |- context [f ?r] => destruct (f r) eqn:?
  | |- context [res_error ?r] => destruct (res_error r)
  end); cbn -[flush_loop] in *.

Lemma settlements_flush id q : settlements id (flush_loop f q).2 = O.
Proof.
  induction q as [|r q IH]; [done|]. cbn.
  destruct (f r); [|done]. destruct (flush_loop f q) eqn:E. cbn in *. done.
Qed.

Lemma live_insert_fresh id (m : gmap Z Z) (k v : Z) : m !! k = None ->
  size (filter (fun kv : Z * Z => kv.2 = id) (<[k:=v]> m))
  = ((if (v =? id)%Z then 1 else 0) + size (filter (fun kv : Z * Z => kv.2 = id) m))%nat.
Proof.
  intros Hk. rewrite map_filter_insert. case_decide as Hv; cbn in Hv.
  - rewrite map_size_insert_None by (apply map_lookup_filter_None_2; by left).
    subst. by rewrite Z.eqb_refl.
  - rewrite delete_id by done. apply Z.eqb_neq in Hv. by rewrite Hv.
Qed.

Lemma live_delete id (m : gmap Z Z) (k v : Z) : m !! k = Some v ->
  (size (filter (fun kv : Z * Z => kv.2 = id) (delete k m)) + (if (v =? id)%Z then 1 else 0)
  = size (filter (fun kv : Z * Z => kv.2 = id) m))%nat.
Proof.
  intros Hk. rewrite map_filter_delete.
  destruct (Z.eqb_spec v id) as [->|Hv].
  - rewrite map_size_delete_Some by (eexists; by apply map_lookup_filter_Some_2).
    assert (size (filter (fun kv : Z * Z => kv.2 = id) m) <> O); [|lia].
    intros Hs%map_size_empty_inv.
    assert (Hf : filter (fun kv : Z * Z => kv.2 = id) m !! k = Some id)
      by (by apply map_lookup_filter_Some_2).
    by rewrite Hs, lookup_empty in Hf.
  - rewrite delete_id; [lia|]. apply map_lookup_filter_None_2. right. naive_solver.
Qed.

Lemma step_tracked e s : tracked s -> tracked (runM (step f e) s).1.2.
Proof.
  destruct s as [[mx d md rto] st w a q hs ts nt n rt hk]. unfold tracked. intros [H1 H2].
  destruct e; unfold_M; cbn [step]; unfold connect, connect_throws, disconnect, send, on_open, on_close, scheduleReconnect,
    on_connect_timeout, on_request_timeout, handleMessage, getNextRequestId, flushMessageQueue, isConnected, when;
    unfold_M; unfold_set; ws_split.
  all: cbn [responseHandlers timers nextTimer] in *.
  all: assert (H3 : forall h id, ts !! h = Some id -> h <> nt)
         by (intros ?? ?%H2; lia).
  all: split; intros i j Hij.
  all: repeat (first [rewrite lookup_insert_Some in * | rewrite lookup_delete_Some in *
                     | progress destruct_or? | progress destruct_and?]; subst).
  all: repeat match goal with
    | H : ?m !! ?a = Some ?b, HH : forall id h, ?m !! id = Some h -> ?t !! h = Some id |- _ =>
        lazymatch goal with _ : t !! b = Some a |- _ => fail | _ => pose proof (HH _ _ H) end
    | H : ?t !! ?a = Some ?b, HH : forall h id, ?t !! h = Some id -> h < ?k |- _ =>
        lazymatch goal with _ : a < k |- _ => fail | _ => pose proof (HH _ _ H) end
    end.
  all: try lia.
  all: intuition (subst; (lia || congruence)).
Qed.

Lemma step_accounting e s id : tracked s ->
  (settlements id (runM (step f e) s).2 + live_timers id (runM (step f e) s).1.2
   = sends_of id [e] + live_timers id s)%nat.
Proof.
  destruct s as [[mx d md rto] st w a q hs ts nt n rt hk]. unfold tracked, live_timers. intros [H1 H2].
  destruct e; unfold_M; cbn [step]; unfold connect, connect_throws, disconnect, send, on_open, on_close, scheduleReconnect,
    on_connect_timeout, on_request_timeout, handleMessage, getNextRequestId, flushMessageQueue, isConnected, when;
    unfold_M; unfold_set; ws_split.
  all: cbn [responseHandlers timers nextTimer] in *.
  all: assert (H3 : ts !! nt = None) by
         (destruct (ts !! nt) eqn:E; [apply H2 in E; lia | done]).
  all: rewrite ?List.filter_app, ?length_app in *.
  all: try match goal with Hf : flush_loop f ?q = (_, ?l) |- _ =>
         pose proof (settlements_flush id q) as Hs; rewrite Hf in Hs;
         unfold settlements in Hs; cbn in Hs; rewrite Hs end.
  all: rewrite ?delete_insert_eq, ?(delete_id ts nt), ?live_insert_fresh by done.
  all: repeat match goal with
    | Hh : ?hm !! ?k = Some ?z, HH : forall id h, ?hm !! id = Some h -> ?t !! h = Some id |- _ =>
        lazymatch goal with _ : t !! z = Some k |- _ => fail | _ => pose proof (HH _ _ Hh) end
    end.
  all: repeat match goal with
    | Ht : ?t !! ?k = Some ?v |- context [delete ?k ?t] =>
        pose proof (live_delete id t k v Ht); revert Ht
    end; intros.
  all: repeat match goal with
    | |- context [(?x =? ?y)%Z] => destruct (Z.eqb_spec x y)
    | Hx : context [(?x =? ?y)%Z] |- _ => destruct (Z.eqb_spec x y)
    end.
  all: cbn in *; lia.
Qed.

Lemma final_single e s : final f [e] s = (runM (step f e) s).1.2.
Proof.
  unfold final; cbn; unfold_M; cbn.
  destruct (runM (step f e) s) as [[u s1] o1]. done.
Qed.

Lemma outputs_single e s : outputs f [e] s = (runM (step f e) s).2.
Proof.
  unfold outputs; cbn; unfold_M; cbn.
  destruct (runM (step f e) s) as [[u s1] o1]. cbn. apply app_nil_r.
Qed.

Lemma run_tracked evs s : tracked s -> tracked (final f evs s).
Proof.
  revert s. induction evs as [|e evs IH]; intros s Hs; [done|].
  rewrite final_cons. apply IH. rewrite final_single. by apply step_tracked.
Qed.

Lemma run_accounting evs s id : tracked s ->
  (settlements id (outputs f evs s) + live_timers id (final f evs s)
   = sends_of id evs + live_timers id s)%nat.
Proof.
  revert s. induction evs as [|e evs IH]; intros s Hs; [by unfold outputs, final|].
  rewrite (outputs_cons f e evs s), (final_cons f e evs s).
  pose proof (step_accounting e s id Hs) as He.
  rewrite <- outputs_single, <- final_single in He.
  assert (Ht : tracked (final f [e] s)) by (rewrite final_single; by apply step_tracked).
  specialize (IH _ Ht).
  unfold settlements, sends_of in *. rewrite List.filter_app, length_app.
  cbn [List.filter] in *. destruct e; cbn [length] in *; try case_match; cbn [length] in *; lia.
Qed.
Lemma step_closed e s : ws s <> Some WS_OPEN -> e <> SockOpen ->
  written (runM (step f e) s).2 = [] /\
  messageQueue (runM (step f e) s).1.2 = messageQueue s ++ sent [e] /\
  ws (runM (step f e) s).1.2 <> Some WS_OPEN.
Proof.
  destruct s as [[mx d md rto] st w a q hs ts nt n rt hk]. cbn [ws messageQueue]. intros Hw He.
  destruct e; try done; unfold_M; cbn [step]; unfold connect, connect_throws, disconnect, send, on_close, scheduleReconnect,
    on_connect_timeout, on_request_timeout, handleMessage, getNextRequestId, when;
    unfold_M; unfold_set; ws_split.
  all: rewrite ?app_nil_r; repeat split; done.
Qed.

Lemma step_attempts e s : 0 <= reconnectAttempts s <= maxReconnectAttempts (cfg s) ->
  cfg (runM (step f e) s).1.2 = cfg s /\
  0 <= reconnectAttempts (runM (step f e) s).1.2 <= maxReconnectAttempts (cfg s).
Proof.
  destruct s as [[mx d md rto] st w a q hs ts nt n rt hk]. cbn [reconnectAttempts cfg maxReconnectAttempts]. intros Ha.
  destruct e; unfold_M; cbn [step]; unfold connect, connect_throws, disconnect, send, on_open, on_close, scheduleReconnect,
    on_connect_timeout, on_request_timeout, handleMessage, getNextRequestId, flushMessageQueue, isConnected, when;
    unfold_M; unfold_set; ws_split.
  all: split; [done | lia].
Qed.
End Runs.

Lemma init_tracked c : tracked (init c).
Proof. split; cbn; intros ??; rewrite lookup_empty; done. Qed.

(** X1.  Request accounting.  From a fresh manager, for every run and every
    request id, the callers settled with that id (resolved or rejected) plus
    the live timeout timers guarding that id always equal the number of
    [send] calls made with that id: no call is settled twice, and one that
    is not settled still has its timer running. *)
Lemma X_accounting f c evs id :
  (settlements id (outputs f evs (init c)) + live_timers id (final f evs (init c))
   = sends_of id evs)%nat.
Proof.
  rewrite (run_accounting f evs (init c) id (init_tracked c)).
  assert (live_timers id (init c) = O) as ->; [|lia].
  unfold live_timers. cbn [timers init]. by rewrite map_filter_empty, map_size_empty.
Qed.

(** X2.  From a fresh manager, every response handler still installed is
    guarded by a live timeout timer for the same request id. *)
Lemma X_pending_has_timer f c evs id h :
  responseHandlers (final f evs (init c)) !! id = Some h ->
  timers (final f evs (init c)) !! h = Some id.
Proof. apply (run_tracked f evs (init c) (init_tracked c)). Qed.

Lemma written_app o1 o2 : written (o1 ++ o2) = written o1 ++ written o2.
Proof. apply omap_app. Qed.

(** X3.  Until a socket opens, nothing is written: from a fresh manager, a run
    without an [open] event writes no request, and the offline queue holds
    exactly the sent requests in call order. *)
Lemma X_queued_until_open f c evs : Forall (fun e => e <> SockOpen) evs ->
  written (outputs f evs (init c)) = [] /\
  messageQueue (final f evs (init c)) = sent evs.
Proof.
  intros Hevs.
  assert (G : forall s, ws s <> Some WS_OPEN ->
    written (outputs f evs s) = [] /\
    messageQueue (final f evs s) = messageQueue s ++ sent evs /\
    ws (final f evs s) <> Some WS_OPEN).
  { induction Hevs as [|e evs He Hevs IH]; intros s Hs.
    - unfold outputs, final. cbn. by rewrite app_nil_r.
    - rewrite (outputs_cons f e evs s), (final_cons f e evs s), written_app.
      destruct (step_closed f e s Hs He) as (H1 & H2 & H3).
      rewrite <- outputs_single in H1. rewrite <- final_single in H2, H3.
      destruct (IH _ H3) as (H4 & H5 & H6).
      rewrite H1, H4, H5, H2, <- app_assoc. split; [done|]. split; [|done].
      f_equal. unfold sent. change (e :: evs) with ([e] ++ evs). by rewrite omap_app. }
  destruct (G (init c)) as (H1 & H2 & _); [done|]. by rewrite H1, H2.
Qed.

Lemma X_queued_until_open_witness :
  written (outputs writes_ok [Connect; Send ledger_req] (init defaultConfig)) = [] /\
  messageQueue (final writes_ok [Connect; Send ledger_req] (init defaultConfig)) =
    sent [Connect; Send ledger_req].
Proof.
  apply (X_queued_until_open writes_ok defaultConfig [Connect; Send ledger_req]).
  repeat constructor; discriminate.
Defined.

Lemma X_pending_has_timer_witness :
  timers (final writes_ok [Send ledger_req] (init defaultConfig)) !! 0 = Some 1.
Proof.
  apply (X_pending_has_timer writes_ok defaultConfig [Send ledger_req] 1 0).
  vm_compute. reflexivity.
Defined.

(** X4.  The reconnection counter never exceeds [maxReconnectAttempts]: from a
    fresh manager with a non-negative budget it stays in
    [0 .. maxReconnectAttempts] on every run. *)
Lemma X_reconnect_attempts_bounded f c evs : 0 <= maxReconnectAttempts c ->
  0 <= reconnectAttempts (final f evs (init c)) <= maxReconnectAttempts c.
Proof.
  intros Hc.
  assert (G : forall s, cfg s = c -> 0 <= reconnectAttempts s <= maxReconnectAttempts c ->
    cfg (final f evs s) = c /\ 0 <= reconnectAttempts (final f evs s) <= maxReconnectAttempts c).
  { induction evs as [|e evs IH]; intros s Hs Ha; [by unfold final|].
    rewrite final_cons, final_single. subst c.
    destruct (step_attempts f e s Ha) as [H1 H2]. apply IH; by rewrite ?H1. }
  apply (G (init c)); [done | cbn; lia].
Qed.

Lemma X_reconnect_attempts_bounded_witness :
  0 <= reconnectAttempts (final writes_ok exhaust_budget (init defaultConfig))
    <= maxReconnectAttempts defaultConfig.
Proof.
  apply (X_reconnect_attempts_bounded writes_ok defaultConfig exhaust_budget).
  cbn. lia.
Defined.

(** X5.  [disconnect()], the close event with code 1000 that it causes, and a
    reconnect timer tick afterwards: only the socket close and the
    [onDisconnect] hook are output (no reconnection, no write), the socket
    and the reconnect timer are cleared, the counter is kept, and the state
    ends [DISCONNECTED], or [FAILED] when the counter already reached the
    budget. *)
Lemma X_disconnect_no_reconnect f s :
  let s' := final f [Disconnect; SockClose 1000; ReconnectTimerFires] s in
  outputs f [Disconnect; SockClose 1000; ReconnectTimerFires] s =
    (if ws s then [OCloseSocket 1000] else []) ++
    (if onDisconnect (eventHandlers s) then [OOnDisconnect] else []) /\
  ws s' = None /\ reconnectTimer s' = None /\
  reconnectAttempts s' = reconnectAttempts s /\
  connectionState s' =
    (if maxReconnectAttempts (cfg s) <=? reconnectAttempts s then FAILED else DISCONNECTED).
Proof.
  destruct s as [[mx d md rto] st w a q hs ts nt n rt [[] [] []]];
  unfold outputs, final; cbn; destruct w; cbn;
  destruct (Z.leb_spec mx a); destruct (Z.ltb_spec a mx); cbn; try lia; repeat split.
Qed.

Lemma flush_loop_order f q q' o : flush_loop f q = (q', o) ->
  written o ++ q' = q /\
  Forall (fun r => f r = true) (written o) /\
  (q' = [] \/ exists r rest, q' = r :: rest /\ f r = false /\ In (OWriteFailed r) o).
Proof.
  revert q' o. induction q as [|r q IH]; intros q' o E; cbn in E.
  - injection E as <- <-. cbn. auto.
  - destruct (f r) eqn:Hr.
    + destruct (flush_loop f q) as [q1 o1] eqn:E1. injection E as <- <-.
      destruct (IH _ _ eq_refl) as (H1 & H2 & H3).
      change (written (OWrite r :: o1)) with (r :: written o1). cbn [app]. rewrite H1.
      split; [done|]. split; [by constructor|].
      destruct H3 as [->|(r' & rest & -> & Hr' & Hin)]; [by left|].
      right. exists r', rest. split; [done|]. split; [done|]. by right.
    + injection E as <- <-. cbn. split; [done|]. split; [done|].
      right. exists r, q. split; [done|]. split; [done|]. by left.
Qed.

(** X6.  On [open], [flushMessageQueue] writes a prefix of the offline queue in
    FIFO order and keeps the rest: the written requests followed by the
    remaining queue are the old queue, every written request was accepted
    by the socket, and the queue is either empty or starts with the request
    whose write failed (put back at the head). *)
Lemma X_open_flushes_fifo f s : ws s <> None ->
  written (outputs f [SockOpen] s) ++ messageQueue (final f [SockOpen] s) = messageQueue s /\
  Forall (fun r => f r = true) (written (outputs f [SockOpen] s)) /\
  (messageQueue (final f [SockOpen] s) = [] \/
   exists r rest, messageQueue (final f [SockOpen] s) = r :: rest /\ f r = false /\
                  In (OWriteFailed r) (outputs f [SockOpen] s)).
Proof.
  intros Hw. rewrite outputs_single, final_single.
  destruct s as [[mx d md rto] st w a q hs ts nt n rt [[] [] []]]; cbn in Hw;
  destruct w as [w|]; try done; cbn -[flush_loop];
  (destruct q as [|r0 q0]; [cbn; split; [done|]; split; [constructor|by left]|]);
  cbn -[flush_loop];
  destruct (flush_loop f (r0 :: q0)) as [q' o] eqn:E; cbn -[flush_loop];
  destruct (flush_loop_order f _ _ _ E) as (H1 & H2 & H3);
  rewrite ?app_nil_r, ?written_app; cbn; rewrite ?app_nil_r;
  (split; [done|]; split; [done|]);
  (destruct H3 as [->|(r & rest & -> & Hr & Hin)]; [by left | right; exists r, rest; repeat split; try done]);
  rewrite ?elem_of_list_In; apply in_or_app; by left.
Qed.

Lemma X_open_flushes_fifo_witness :
  let f := fun r => negb (req_id r =? 2) in
  let s := final f [Send (mkRequest 1 "a"); Send (mkRequest 2 "b");
                    Send (mkRequest 3 "c"); Connect] (init defaultConfig) in
  written (outputs f [SockOpen] s) ++ messageQueue (final f [SockOpen] s) = messageQueue s /\
  Forall (fun r => f r = true) (written (outputs f [SockOpen] s)) /\
  (messageQueue (final f [SockOpen] s) = [] \/
   exists r rest, messageQueue (final f [SockOpen] s) = r :: rest /\ f r = false /\
                  In (OWriteFailed r) (outputs f [SockOpen] s)).
Proof.
  intros f s. apply X_open_flushes_fifo. vm_compute. discriminate.
Defined.

Lemma send_open_ok f s r : ws s = Some WS_OPEN -> f r = true ->
  outputs f [Send r] s = [OWrite r] /\
  final f [Send r] s =
    set_responseHandlers (<[req_id r := nextTimer s]> (responseHandlers s))
      (set_timers (<[nextTimer s := req_id r]> (timers s))
        (set_nextTimer (nextTimer s + 1) s)).
Proof.
  intros Hw Hr. rewrite outputs_single, final_single.
  destruct s as [c st w a q hs ts nt n rt hk]; cbn in Hw; subst w.
  cbn. rewrite Hr. split; reflexivity.
Qed.

Lemma timeout_live f s h id : timers s !! h = Some id ->
  outputs f [RequestTimeout h] s = [OReject id (ErrTimeout id)] /\
  final f [RequestTimeout h] s =
    set_responseHandlers (delete id (responseHandlers s))
      (set_timers (delete h (timers s)) s).
Proof.
  intros Ht. rewrite outputs_single, final_single.
  destruct s as [c st w a q hs ts nt n rt hk]; cbn in Ht.
  cbn. rewrite Ht. split; reflexivity.
Qed.

Lemma message_unsolicited f s resp : responseHandlers s !! res_id resp = None ->
  outputs f [SockMessage resp] s =
    (if onMessage (eventHandlers s) then [OOnMessage resp] else []) ++
    [ONotification (res_method resp)] /\
  final f [SockMessage resp] s = s.
Proof.
  intros Hh. rewrite outputs_single, final_single.
  destruct s as [c st w a q hs ts nt n rt [? ? []]]; cbn in Hh;
  cbn; rewrite Hh; split; reflexivity.
Qed.

(** X7.  Two open [send]s with the same id: the second handler replaces the first,
    so the first timer rejects the id, the response that arrives afterwards
    finds no handler and is treated as a notification, and the second
    timer rejects the id once more. *)
Lemma X_duplicate_id_orphans_response f s r1 r2 resp :
  ws s = Some WS_OPEN -> f r1 = true -> f r2 = true ->
  req_id r2 = req_id r1 -> res_id resp = req_id r1 ->
  let evs := [Send r1; Send r2; RequestTimeout (nextTimer s); SockMessage resp] in
  outputs f evs s =
    [OWrite r1; OWrite r2; OReject (req_id r1) (ErrTimeout (req_id r1))] ++
    (if onMessage (eventHandlers s) then [OOnMessage resp] else []) ++
    [ONotification (res_method resp)] /\
  outputs f [RequestTimeout (nextTimer s + 1)] (final f evs s) =
    [OReject (req_id r1) (ErrTimeout (req_id r1))].
Proof.
  intros Hw H1 H2 Hid Hres evs. unfold evs.
  rewrite (outputs_cons f (Send r1) [Send r2; RequestTimeout (nextTimer s); SockMessage resp] s),
    (final_cons f (Send r1) [Send r2; RequestTimeout (nextTimer s); SockMessage resp] s).
  rewrite (outputs_cons f (Send r2) [RequestTimeout (nextTimer s); SockMessage resp]),
    (final_cons f (Send r2) [RequestTimeout (nextTimer s); SockMessage resp]).
  rewrite (outputs_cons f (RequestTimeout (nextTimer s)) [SockMessage resp]),
    (final_cons f (RequestTimeout (nextTimer s)) [SockMessage resp]).
  destruct (send_open_ok f s r1 Hw H1) as [O1 F1]. rewrite O1, F1.
  set (s1 := set_responseHandlers _ _).
  destruct (send_open_ok f s1 r2 Hw H2) as [O2 F2]. rewrite O2, F2.
  set (s2 := set_responseHandlers _ _).
  assert (T2 : timers s2 !! nextTimer s = Some (req_id r1)).
  { unfold s2, s1; cbn. rewrite Hid. rewrite lookup_insert_ne by lia. by rewrite lookup_insert_eq. }
  destruct (timeout_live f s2 _ _ T2) as [O3 F3]. rewrite O3, F3.
  set (s3 := set_responseHandlers _ _).
  assert (M3 : responseHandlers s3 !! res_id resp = None).
  { unfold s3. cbn. rewrite Hres. apply lookup_delete_eq. }
  destruct (message_unsolicited f s3 resp M3) as [O4 F4]. rewrite O4, F4.
  assert (T3 : timers s3 !! (nextTimer s + 1) = Some (req_id r1)).
  { unfold s3, s2, s1; cbn. rewrite Hid, lookup_delete_ne by lia. by rewrite lookup_insert_eq. }
  destruct (timeout_live f s3 _ _ T3) as [O5 _]. rewrite O5.
  split; [|done]. reflexivity.
Qed.

Lemma X_duplicate_id_orphans_response_witness :
  let s := final writes_ok [Connect; SockOpen] (init defaultConfig) in
  let r2 := mkRequest 1 "ping" in
  let resp := mkResponse 1 "get_ledger_balances" None in
  let evs := [Send ledger_req; Send r2; RequestTimeout (nextTimer s); SockMessage resp] in
  outputs writes_ok evs s =
    [OWrite ledger_req; OWrite r2; OReject (req_id ledger_req) (ErrTimeout (req_id ledger_req))] ++
    (if onMessage (eventHandlers s) then [OOnMessage resp] else []) ++
    [ONotification (res_method resp)] /\
  outputs writes_ok [RequestTimeout (nextTimer s + 1)] (final writes_ok evs s) =
    [OReject (req_id ledger_req) (ErrTimeout (req_id ledger_req))].
Proof.
  intros s r2 resp.
  apply (X_duplicate_id_orphans_response writes_ok s ledger_req r2 resp);
    vm_compute; reflexivity.
Defined.

(* ------------------------------------------------------------------------- *)
(** ** ABI string decoding *)
(* ------------------------------------------------------------------------- *)

Import Hex.


Lemma radix_digit_range c d : radix_digit c = Some d -> 0 <= d < 16.
Proof.
  unfold radix_digit.
  destruct ((48 <=? _) && _) eqn:E1; [intros [= <-]; apply andb_prop in E1 as [E1 E2]; lia|].
  destruct ((97 <=? _) && _) eqn:E2; [intros [= <-]; apply andb_prop in E2 as [E3 E4]; lia|].
  destruct ((65 <=? _) && _) eqn:E3; [intros [= <-]; apply andb_prop in E3 as [E5 E6]; lia|].
  done.
Qed.

Lemma radix16_acc_bounds s acc v : radix_value_acc 16 acc s = Some v -> 0 <= acc ->
  acc * 16 ^ Z.of_nat (length s) <= v < (acc + 1) * 16 ^ Z.of_nat (length s).
Proof.
  revert acc. induction s as [|c s IH]; intros acc H Hacc; cbn in H.
  - injection H as <-. cbn. lia.
  - destruct (radix_digit c) as [d|] eqn:Hd; [|done].
    apply radix_digit_range in Hd. destruct (d <? 16); [|done].
    apply IH in H; [|lia]. cbn [length]. rewrite Nat2Z.inj_succ, Z.pow_succ_r by lia.
    set (p := 16 ^ Z.of_nat (length s)) in *.
    assert (0 < p) by (apply Z.pow_pos_nonneg; lia). nia.
Qed.

Lemma take_hex_length s : (length (take_hex s) <= length s)%nat.
Proof. induction s as [|c s IH]; cbn; [lia|]. destruct (radix_digit c); cbn; lia. Qed.

Lemma drop_while_length p s : (length (drop_while p s) <= length s)%nat.
Proof. induction s as [|c s IH]; cbn; [lia|]. destruct (p c); cbn; lia. Qed.

Lemma sign_split_length t neg t1 : sign_split t = (neg, t1) -> (length t1 <= length t)%nat.
Proof. unfold sign_split. intros E. repeat case_match; injection E as <- <-; cbn; lia. Qed.

Lemma strip_0x_length t : (length (strip_0x t) <= length t)%nat.
Proof. unfold strip_0x. repeat case_match; cbn; lia. Qed.

Lemma parseInt16_bound s v : js_parseInt16 s = Some v ->
  v < 16 ^ Z.of_nat (length s).
Proof.
  unfold js_parseInt16.
  pose proof (drop_while_length is_js_space s) as L0.
  destruct (sign_split (drop_while is_js_space s)) as [neg t1] eqn:E.
  apply sign_split_length in E.
  pose proof (strip_0x_length t1) as L2.
  pose proof (take_hex_length (strip_0x t1)) as L3.
  destruct (radix_value 16 (take_hex (strip_0x t1))) as [w|] eqn:Hw; [|done].
  intros [= <-]. unfold radix_value in Hw.
  destruct (take_hex (strip_0x t1)) as [|c r] eqn:Et; [done|].
  apply radix16_acc_bounds in Hw; [|lia]. rewrite <- Et in *.
  assert (16 ^ Z.of_nat (length (take_hex (strip_0x t1))) <= 16 ^ Z.of_nat (length s))
    by (apply Z.pow_le_mono_r; lia).
  destruct neg; lia.
Qed.

Lemma char_of_no_nul chunk : (length chunk <= 2)%nat ->
  ~ In (ascii_of_nat 0) (char_of chunk).
Proof.
  intros Hl. unfold char_of.
  destruct (js_parseInt16 chunk) as [c|] eqn:E; [|by intros []].
  apply parseInt16_bound in E.
  assert (16 ^ Z.of_nat (length chunk) <= 16 ^ 2) by (apply Z.pow_le_mono_r; lia).
  destruct (Z.ltb_spec 0 c); [|by intros []]. intros [Hc|[]].
  apply (f_equal nat_of_ascii) in Hc. rewrite !nat_ascii_embedding in Hc by lia. lia.
Qed.

Lemma decode_loop_no_nul s : ~ In (ascii_of_nat 0) (decode_loop s).
Proof.
  induction s as [[|c1 [|c2 s]] IH] using (induction_ltof1 _ (@length _)); unfold ltof in IH.
  - by intros [].
  - apply char_of_no_nul. cbn; lia.
  - cbn. rewrite in_app_iff. intros [H|H].
    + revert H. apply char_of_no_nul. cbn; lia.
    + revert H. apply IH. cbn. lia.
Qed.

(** X8.  [decodeStringFromHex] never returns an empty string and never a NUL
    character, whatever its input. *)
Lemma X_decodeStringFromHex_nonempty_no_nul h :
  decodeStringFromHex h <> [] /\ ~ In (ascii_of_nat 0) (decodeStringFromHex h).
Proof.
  unfold decodeStringFromHex.
  match goal with |- context [decode_loop ?s] => pose proof (decode_loop_no_nul s) as H; destruct (decode_loop s) end.
  - split; [done|]. cbn. intuition discriminate.
  - split; [done|]. exact H.
Qed.

(** X9.  An input of at most 128 hex characters after the optional [0x] (no
    string bytes past the offset and length words) decodes to ['UNKNOWN']. *)
Lemma X_decodeStringFromHex_short_is_unknown h :
  let h' := match h with "0"%char :: "x"%char :: r => r | _ => h end in
  (length h' <= 128)%nat -> decodeStringFromHex h = js "UNKNOWN".
Proof.
  intros h' Hl. unfold decodeStringFromHex.
  match goal with |- context [js_slice ?x 128 ?e] =>
    change x with h' end.
  match goal with |- context [js_slice h' 128 ?e] => generalize e; intros stop end.
    assert (js_slice h' 128 stop = []) as ->; [|done].
  unfold js_slice. destruct (Z.ltb_spec 128 0); [lia|].
  rewrite (Z.min_r 128) by lia.
  destruct (Z.ltb_spec stop 0).
  - replace (Z.to_nat _) with O by lia. done.
  - replace (Z.to_nat _) with O by lia. done.
Qed.

Lemma X_decodeStringFromHex_short_is_unknown_witness :
  decodeStringFromHex (js "0x1234") = js "UNKNOWN".
Proof.
  apply (X_decodeStringFromHex_short_is_unknown (js "0x1234")). cbn. lia.
Defined.


Lemma hex_digit_radix n : 0 <= n < 16 -> radix_digit (hex_digit n) = Some n.
Proof.
  intros Hn. unfold radix_digit, hex_digit.
  destruct (Z.ltb_spec n 10).
  - rewrite nat_ascii_embedding by lia. rewrite Z2Nat.id by lia.
    replace ((48 <=? 48 + n) && (48 + n <=? 57)) with true by (symmetry; apply andb_true_intro; split; apply Z.leb_le; lia).
    f_equal. lia.
  - rewrite nat_ascii_embedding by lia. rewrite Z2Nat.id by lia.
    replace ((48 <=? 87 + n) && (87 + n <=? 57)) with false by (symmetry; apply andb_false_intro2; apply Z.leb_gt; lia).
    replace ((97 <=? 87 + n) && (87 + n <=? 102)) with true by (symmetry; apply andb_true_intro; split; apply Z.leb_le; lia).
    f_equal. lia.
Qed.

Lemma hex_fixed_length k n : length (hex_fixed k n) = k.
Proof. induction k; cbn; congruence. Qed.

Lemma hex_fixed_digits k n : Forall (fun c => radix_digit c <> None) (hex_fixed k n).
Proof.
  induction k as [|k IH]; cbn; constructor; [|done].
  rewrite hex_digit_radix; [done|]. apply Z.mod_pos_bound. lia.
Qed.

Lemma take_hex_digits s rest : Forall (fun c => radix_digit c <> None) s ->
  take_hex (s ++ rest) = s ++ take_hex rest.
Proof.
  induction 1 as [|c s Hc Hs IH]; [done|]. cbn.
  destruct (radix_digit c); [by rewrite IH | done].
Qed.

Lemma hex_fixed_value k n acc rest : 0 <= acc ->
  radix_value_acc 16 acc (hex_fixed k n ++ rest) =
  radix_value_acc 16 (acc * 16 ^ Z.of_nat k + n mod 16 ^ Z.of_nat k) rest.
Proof.
  revert acc. induction k as [|k IH]; intros acc Hacc.
  - cbn. f_equal. rewrite Z.mod_1_r. lia.
  - cbn [hex_fixed app radix_value_acc].
    assert (Hd : 0 <= (n / 16 ^ Z.of_nat k) mod 16 < 16) by (apply Z.mod_pos_bound; lia).
    rewrite hex_digit_radix by done.
    replace ((n / 16 ^ Z.of_nat k) mod 16 <? 16) with true by (symmetry; apply Z.ltb_lt; lia).
    rewrite IH by lia. f_equal.
    rewrite Nat2Z.inj_succ, Z.pow_succ_r by lia.
    assert (0 < 16 ^ Z.of_nat k) by (apply Z.pow_pos_nonneg; lia).
    rewrite (Z.mul_comm 16 (16 ^ Z.of_nat k)), Z.rem_mul_r by lia. ring.
Qed.

Lemma radix_digit_not_special c : radix_digit c <> None ->
  is_js_space c = false /\ c <> "-"%char /\ c <> "+"%char /\
  Ascii.eqb c "x" = false /\ Ascii.eqb c "X" = false.
Proof. destruct c as [[] [] [] [] [] [] [] []]; vm_compute; intuition congruence. Qed.

Lemma parseInt16_digits s : s <> [] -> Forall (fun c => radix_digit c <> None) s ->
  js_parseInt16 s = radix_value 16 s.
Proof.
  intros Hne Hs. destruct s as [|c r]; [done|].
  inversion Hs as [|? ? Hc Hr]; subst.
  destruct (radix_digit_not_special c Hc) as (Hsp & Hm & Hp & _).
  unfold js_parseInt16. cbn [drop_while]. rewrite Hsp.
  assert (E : sign_split (c :: r) = (false, c :: r)).
  { destruct c as [[] [] [] [] [] [] [] []]; try reflexivity; congruence. }
  rewrite E.
  assert (E2 : strip_0x (c :: r) = c :: r).
  { destruct r as [|x r]; [destruct c as [[] [] [] [] [] [] [] []]; reflexivity|].
    inversion Hr as [|? ? Hx _]; subst.
    destruct (radix_digit_not_special x Hx) as (_ & _ & _ & Hx1 & Hx2).
    unfold strip_0x. rewrite Hx1, Hx2. by repeat case_match. }
  rewrite E2. rewrite <- (app_nil_r (c :: r)), take_hex_digits by done. cbn [take_hex]. rewrite app_nil_r.
  destruct (radix_value 16 (c :: r)); reflexivity.
Qed.

Lemma parseInt16_word k n : (0 < k)%nat -> 0 <= n < 16 ^ Z.of_nat k ->
  js_parseInt16 (hex_fixed k n) = Some n.
Proof.
  intros Hk Hn. rewrite parseInt16_digits.
  - unfold radix_value. destruct k; [lia|]. cbn [hex_fixed].
    change (hex_digit ((n / 16 ^ Z.of_nat k) mod 16) :: hex_fixed k n) with (hex_fixed (S k) n).
    rewrite <- (app_nil_r (hex_fixed (S k) n)), hex_fixed_value by lia. cbn.
    f_equal. rewrite Z.mod_small; lia.
  - destruct k; [lia|]. done.
  - apply hex_fixed_digits.
Qed.

Lemma js_slice_mid p m q :
  js_slice (p ++ m ++ q) (Z.of_nat (length p)) (Z.of_nat (length p) + Z.of_nat (length m)) = m.
Proof.
  unfold js_slice. cbv zeta. rewrite !length_app.
  destruct (Z.ltb_spec (Z.of_nat (length p)) 0); [lia|].
  destruct (Z.ltb_spec (Z.of_nat (length p) + Z.of_nat (length m)) 0); [lia|].
  rewrite !Z.min_l by lia.
  replace (Z.to_nat (Z.of_nat (length p) + Z.of_nat (length m) - Z.of_nat (length p))) with (length m) by lia.
  rewrite Nat2Z.id, skipn_app, skipn_all, Nat.sub_diag, skipn_O. cbn.
  rewrite firstn_app, firstn_all, Nat.sub_diag, firstn_O. apply app_nil_r.
Qed.

Lemma decode_loop_bytes bs : Forall (fun b => 0 < b < 256) bs ->
  decode_loop (hex_bytes bs) = map (fun b => ascii_of_nat (Z.to_nat b)) bs.
Proof.
  induction 1 as [|b bs Hb Hbs IH]; [done|].
  unfold hex_bytes. cbn [flat_map]. fold (hex_bytes bs).
  cbn [hex_fixed app decode_loop]. rewrite IH. cbn [map]. f_equal.
  unfold char_of.
  change [hex_digit ((b / 16 ^ Z.of_nat 1) mod 16); hex_digit ((b / 16 ^ Z.of_nat 0) mod 16)]
    with (hex_fixed 2 b).
  rewrite parseInt16_word by (cbn; lia).
  destruct (Z.ltb_spec 0 b); [done|lia].
Qed.

(** X10.  Round trip: the ABI encoding of a non-empty string of non-zero bytes
    decodes back to those bytes. *)
Lemma X_decodeStringFromHex_abi_roundtrip bs :
  bs <> [] -> Forall (fun b => 0 < b < 256) bs -> Z.of_nat (length bs) < 16 ^ 64 ->
  decodeStringFromHex (abi_string bs) = map (fun b => ascii_of_nat (Z.to_nat b)) bs.
Proof.
  intros Hne Hbs Hlen. unfold decodeStringFromHex, abi_string. cbn [js list_ascii_of_string app].
  set (W := hex_fixed 64 32). set (L := hex_fixed 64 (Z.of_nat (length bs))).
  assert (HW : length W = 64%nat) by apply hex_fixed_length.
  assert (HL : length L = 64%nat) by apply hex_fixed_length.
  assert (HB : length (hex_bytes bs) = (2 * length bs)%nat).
  { unfold hex_bytes. clear. induction bs; cbn [flat_map]; [done|]. rewrite length_app, hex_fixed_length. cbn [length]. lia. }
  replace (js_slice (W ++ L ++ hex_bytes bs ++ _) 64 128) with L.
  2: { replace 64 with (Z.of_nat (length W)) by lia. replace 128 with (Z.of_nat (length W) + Z.of_nat (length L)) by lia.
       by rewrite js_slice_mid. }
  unfold L. rewrite parseInt16_word by lia. fold L.
  replace (js_slice (W ++ L ++ hex_bytes bs ++ _) 128 _) with (hex_bytes bs).
  2: { rewrite app_assoc.
       replace 128 with (Z.of_nat (length (W ++ L))) by (rewrite length_app; lia).
       replace (Z.of_nat (length (W ++ L)) + Z.of_nat (length bs) * 2)
         with (Z.of_nat (length (W ++ L)) + Z.of_nat (length (hex_bytes bs))) by lia.
       by rewrite js_slice_mid. }
  rewrite decode_loop_bytes by done.
  destruct bs; [done|]. reflexivity.
Qed.

Lemma X_decodeStringFromHex_abi_roundtrip_witness :
  decodeStringFromHex (abi_string [85; 83; 68; 67]) = js "USDC".
Proof.
  apply (X_decodeStringFromHex_abi_roundtrip [85; 83; 68; 67]).
  - discriminate.
  - repeat constructor; lia.
  - vm_compute. reflexivity.
Defined.

(* ------------------------------------------------------------------------- *)
(** ** Token decimals *)
(* ------------------------------------------------------------------------- *)

Import Decimals.


Lemma rpc_decimals_range rpc p : rpc_decimals rpc = Some p -> 0 <= p <= 36.
Proof.
  unfold rpc_decimals. destruct rpc as [| |[]]; try done.
  case_match; [done|]. case_match; [|done].
  destruct (Z.leb_spec 0 z), (Z.leb_spec z 36); cbn; intros; simplify_eq; lia.
Qed.

(** X11.  With a token address, the decimals that [sendCrypto] resolves always lie
    in [0, 36], and they are 18 whenever the source is still
    ['fallback-18']. *)
Lemma X_token_decimals_range chain tokenAddress rpc zer :
  let '(d, src) := token_decimals chain tokenAddress rpc zer in
  (0 <= d <= inject_Z 36)%Q /\ (src = "fallback-18"%string -> d == inject_Z 18)%Q.
Proof.
  unfold token_decimals.
  destruct (rpc_decimals rpc) as [p|] eqn:Hr.
  - apply rpc_decimals_range in Hr. cbn [String.eqb Ascii.eqb Bool.eqb andb]. split; [|done].
    change 0%Q with (inject_Z 0). rewrite <- !Zle_Qle. lia.
  - cbn [String.eqb Ascii.eqb Bool.eqb andb].
    assert (H18 : (0 <= inject_Z 18 <= inject_Z 36)%Q /\
                  ("fallback-18"%string = "fallback-18"%string -> inject_Z 18 == inject_Z 18)%Q).
    { split; [change 0%Q with (inject_Z 0); rewrite <- !Zle_Qle; lia | reflexivity]. }
    destruct zer as [| |ps]; try exact H18.
    destruct (js_find _ ps) as [[[|impl cid [d|]]|]|]; try exact H18.
    destruct (Qle_bool 0 d && Qle_bool d (inject_Z 36))%bool eqn:Hq; [|exact H18].
    apply andb_true_iff in Hq as [H1 H2].
    apply Qle_bool_iff in H1, H2. split; [done|discriminate].
Qed.

Lemma parseInt16_0x w : w <> [] -> Forall (fun c => radix_digit c <> None) w ->
  js_parseInt16 ("0"%char :: "x"%char :: w) = radix_value 16 w.
Proof.
  intros Hne Hw. unfold js_parseInt16.
  change (drop_while is_js_space ("0"%char :: "x"%char :: w)) with ("0"%char :: "x"%char :: w).
  change (sign_split ("0"%char :: "x"%char :: w)) with (false, "0"%char :: "x"%char :: w).
  cbv beta iota zeta. change (strip_0x ("0"%char :: "x"%char :: w)) with w.
  rewrite <- (app_nil_r w), take_hex_digits by done. cbn [take_hex]. rewrite app_nil_r.
  destruct (radix_value 16 w); reflexivity.
Qed.

(** X12.  A [decimals()] reply in ABI form, [0x] and one 64-digit word holding
    [n <= 36], gives decimals [n] from the RPC whatever Zerion returns,
    [n = 0] included; the short reply ['0x0'] is treated as no answer, so
    without Zerion data the decimals fall back to 18. *)
Lemma X_decimals_abi_word chain tokenAddress n zer :
  0 <= n <= 36 ->
  token_decimals chain tokenAddress
    (RpcResult (JStr (string_of_list_ascii (js "0x" ++ hex_fixed 64 n)%list))) zer =
  (inject_Z n, "rpc-decimals()"%string) /\
  token_decimals chain tokenAddress (RpcResult (JStr "0x0"%string)) (PosNoData) =
  (inject_Z 18, "fallback-18"%string).
Proof.
  intros Hn. split; [|reflexivity].
  assert (Hp : js_parseInt16 (js "0x" ++ hex_fixed 64 n)%list = Some n).
  { cbn [js list_ascii_of_string app]. rewrite parseInt16_0x.
    - rewrite <- parseInt16_digits; [| |apply hex_fixed_digits].
      + apply parseInt16_word; [lia|]. split; [lia|].
        apply Z.le_lt_trans with 36; [lia|]. reflexivity.
      + intros E. apply (f_equal length) in E. rewrite hex_fixed_length in E. discriminate.
    - cbn. done.
    - apply hex_fixed_digits. }
  assert (Hr : rpc_decimals (RpcResult (JStr (string_of_list_ascii (js "0x" ++ hex_fixed 64 n)%list))) = Some n).
  { unfold rpc_decimals.
    set (s := string_of_list_ascii (js "0x" ++ hex_fixed 64 n)%list).
    assert (Hl : forall t, s = t -> length (js "0x" ++ hex_fixed 64 n)%list = length (js t)).
    { intros t <-. unfold s, js. by rewrite list_ascii_of_string_of_list_ascii. }
    destruct (String.eqb_spec s "0x") as [E|_].
    { apply Hl in E. rewrite length_app, hex_fixed_length in E. discriminate. }
    destruct (String.eqb_spec s "0x0"%string) as [E|_].
    { apply Hl in E. rewrite length_app, hex_fixed_length in E. discriminate. }
    cbn [orb]. unfold js at 1. unfold s. rewrite list_ascii_of_string_of_list_ascii. rewrite Hp.
    destruct (Z.leb_spec 0 n), (Z.leb_spec n 36); try lia. done. }
  unfold token_decimals. rewrite Hr. reflexivity.
Qed.

Lemma X_decimals_abi_word_witness :
  token_decimals "ethereum" "0xA0b86991c6218b36c1d19D4a2e9Eb0cE3606eB48"
    (RpcResult (JStr (string_of_list_ascii (js "0x" ++ hex_fixed 64 6)%list))) PosNoData =
  (inject_Z 6, "rpc-decimals()"%string) /\
  token_decimals "ethereum" "0xA0b86991c6218b36c1d19D4a2e9Eb0cE3606eB48"
    (RpcResult (JStr "0x0")) PosNoData = (inject_Z 18, "fallback-18"%string).
Proof.
  apply (X_decimals_abi_word "ethereum" "0xA0b86991c6218b36c1d19D4a2e9Eb0cE3606eB48" 6 PosNoData).
  lia.
Defined.

Lemma js_find_skip {A} (f : A -> option bool) xs l :
  Forall (fun x => f x = Some false) xs -> js_find f (xs ++ l) = js_find f l.
Proof. induction 1 as [|x xs Hx _ IH]; [done|]. cbn. by rewrite Hx. Qed.

(** X13.  In the Zerion fallback, a [null] position ahead of the first match makes
    the [find] callback throw: the lookup is abandoned and the decimals stay
    18, even when a matching position follows. *)
Lemma X_zerion_nullish_position_aborts chain tokenAddress rpc ps1 ps2 :
  rpc_decimals rpc = None ->
  Forall (fun p => pos_matches (toLowerCase (js tokenAddress)) (zerion_chain chain) p = Some false) ps1 ->
  token_decimals chain tokenAddress rpc (PosData (ps1 ++ PNullish :: ps2)) =
  (inject_Z 18, "fallback-18"%string).
Proof.
  intros Hr Hps. unfold token_decimals. rewrite Hr.
  cbn [String.eqb Ascii.eqb Bool.eqb andb].
  rewrite js_find_skip by done. reflexivity.
Qed.

Lemma X_zerion_nullish_position_aborts_witness :
  token_decimals "base"%string "0xABC"%string RpcNoProvider
    (PosData ([PObj (FStr "0xdef"%string) (Some "base"%string) (NNumber (6#1))] ++
              PNullish :: [PObj (FStr "0xabc"%string) (Some "base"%string) (NNumber (6#1))])) =
  (inject_Z 18, "fallback-18"%string).
Proof.
  apply X_zerion_nullish_position_aborts; [reflexivity|].
  repeat constructor.
Defined.

(* ------------------------------------------------------------------------- *)
(** ** Transaction history merge *)
(* ------------------------------------------------------------------------- *)

Import Txs.


Section MergeFacts.
Variable Attrs Info : Type.
Variable details : Attrs -> option Info.


Lemma process_key tx k r : process details tx = Some (k, r) ->
  k = row_key r /\ row_txHash r <> [].
Proof.
  destruct tx as [|h id cid a]; [done|]. cbn.
  destruct (chain_of cid) as [c|]; [|done].
  destruct (hash_of h id) as [[|x hs]|]; try done.
  destruct (details a) as [i|]; [|done]. by intros [= <- <-].
Qed.

Lemma set_if_absent_nodup (m : list (jstring * Row Info)) kv : NoDup (map fst m) -> NoDup (map fst (set_if_absent m kv)).
Proof.
  unfold set_if_absent. intros Hm. case_match eqn:E; [done|].
  rewrite map_app. apply NoDup_app. split; [done|]. split; [|by apply NoDup_singleton].
  intros k Hk ->%list_elem_of_singleton.
  apply list_elem_of_In, in_map_iff in Hk as [[k' v'] [Hk Hin]]. cbn in Hk. subst.
  assert (existsb (fun e => bool_decide (e.1 = kv.1)) m = true) as Ht; [|congruence].
  apply existsb_exists. exists (kv.1, v'). split; [done|]. by apply bool_decide_eq_true.
Qed.

Lemma fold_nodup txs (m : list (jstring * Row Info)) : NoDup (map fst m) ->
  NoDup (map fst (fold_left (merge_step details) txs m)).
Proof.
  revert m. induction txs as [|tx txs IH]; intros m Hm; [done|]. cbn. apply IH.
  unfold merge_step. case_match; [by apply set_if_absent_nodup | done].
Qed.

Lemma fold_mono txs (m : list (jstring * Row Info)) e : In e m -> In e (fold_left (merge_step details) txs m).
Proof.
  revert m. induction txs as [|tx txs IH]; intros m Hm; [done|]. cbn. apply IH.
  unfold merge_step, set_if_absent. repeat case_match; try done. apply in_or_app. by left.
Qed.

Lemma fold_entries txs (m : list (jstring * Row Info)) e : In e (fold_left (merge_step details) txs m) ->
  In e m \/ exists tx, In tx txs /\ process details tx = Some e.
Proof.
  revert m. induction txs as [|tx txs IH]; intros m He; [by left|]. cbn in He.
  destruct (IH _ He) as [H | (tx' & Hin & Hp)]; [|right; exists tx'; split; [by right|done]].
  unfold merge_step, set_if_absent in H.
  destruct (process details tx) as [kv|] eqn:Hp; [|by left].
  case_match; [by left|].
  apply in_app_or in H as [H | [<- | []]]; [by left|].
  right. exists tx. split; [by left|done].
Qed.

Lemma nodup_fst_unique (m : list (jstring * Row Info)) k r r' :
  NoDup (map fst m) -> In (k, r) m -> In (k, r') m -> r = r'.
Proof.
  induction m as [|[k0 v0] m IH]; [done|]. cbn. intros Hnd H1 H2.
  apply NoDup_cons in Hnd as [Hn Hnd].
  destruct H1 as [E1 | H1], H2 as [E2 | H2]; simplify_eq/=.
  - done.
  - exfalso. apply Hn, list_elem_of_In, in_map_iff. by exists (k, r').
  - exfalso. apply Hn, list_elem_of_In, in_map_iff. by exists (k, r).
  - by apply IH.
Qed.

Lemma fold_entries_key txs e : In e (fold_left (merge_step details) txs []) ->
  e.1 = row_key e.2 /\ row_txHash e.2 <> [] /\ exists tx, In tx txs /\ process details tx = Some e.
Proof.
  intros He. destruct (fold_entries txs [] e He) as [[] | (tx & Hin & Hp)].
  destruct e as [k r]. destruct (process_key tx k r Hp). eauto 10.
Qed.

Lemma in_merge r perAddr : In r (merge_transactions details perAddr) ->
  exists k, In (k, r) (fold_left (merge_step details) (concat perAddr) []).
Proof.
  unfold merge_transactions. intros (e & <- & He)%in_map_iff. exists e.1. by destruct e.
Qed.

(** X14.  The merged history never holds two rows with the same chain and
    transaction hash. *)
Lemma X_merge_no_duplicate perAddr :
  NoDup (map (fun r => (row_chain r, row_txHash r)) (merge_transactions details perAddr)).
Proof.
  unfold merge_transactions. set (m := fold_left _ _ []).
  assert (Hnd : NoDup (map fst m)) by (apply fold_nodup; constructor).
  assert (Hk : map fst m = map (fun p => (p.1 ++ js ":" ++ p.2)%list)
                 (map (fun r => (row_chain r, row_txHash r)) (map snd m))).
  { rewrite !map_map. apply map_ext_in. intros [k r] He.
    by destruct (fold_entries_key _ _ He) as [-> _]. }
  rewrite Hk in Hnd. apply NoDup_ListNoDup in Hnd. apply NoDup_ListNoDup. by apply NoDup_map_inv in Hnd.
Qed.

(** X15.  Every merged row comes from an input transaction: its hash is not
    empty, and that transaction yields this row under the row's key. *)
Lemma X_merge_rows_sound perAddr r :
  In r (merge_transactions details perAddr) ->
  row_txHash r <> [] /\
  exists tx, In tx (concat perAddr) /\ process details tx = Some (row_key r, r).
Proof.
  intros (k & Hk)%in_merge. destruct (fold_entries_key _ _ Hk) as (E & Hh & tx & Hin & Hp).
  cbn in E, Hh. subst k. eauto.
Qed.

(** X16.  The first transaction with a given key is the one kept: it is in the
    merged history, and every row stored under that key is that one. *)
Lemma X_merge_first_wins perAddr pre tx post k r :
  concat perAddr = (pre ++ tx :: post)%list ->
  process details tx = Some (k, r) ->
  (forall tx' r', In tx' pre -> process details tx' <> Some (k, r')) ->
  In r (merge_transactions details perAddr) /\
  forall r', In r' (merge_transactions details perAddr) -> row_key r' = k -> r' = r.
Proof.
  intros Hc Hp Hpre.
  assert (Hin : In (k, r) (fold_left (merge_step details) (concat perAddr) [])).
  { rewrite Hc, fold_left_app. cbn [fold_left]. apply fold_mono.
    unfold merge_step at 1. rewrite Hp. unfold set_if_absent.
    destruct (existsb _ _) eqn:E; [|apply in_or_app; right; by left].
    exfalso. apply existsb_exists in E as ([k' r'] & He & Hb).
    apply bool_decide_eq_true in Hb. cbn in Hb. subst k'.
    destruct (fold_entries pre [] (k, r') He) as [[] | (tx' & Hin' & Hp')].
    by apply (Hpre tx' r'). }
  split.
  - unfold merge_transactions. apply in_map_iff. by exists (k, r).
  - intros r' (k' & Hk')%in_merge Hkey.
    destruct (fold_entries_key _ _ Hk') as (E & _). cbn in E. subst k'.
    symmetry. apply (nodup_fst_unique (fold_left (merge_step details) (concat perAddr) []) k).
    + apply fold_nodup. constructor.
    + exact Hin.
    + by rewrite <- Hkey.
Qed.

End MergeFacts.


Definition merge_tx1 : Tx nat := TxObj (JStr "0xAB") JUndefined (JStr "Base") 1%nat.
Definition merge_tx2 : Tx nat := TxObj JUndefined (JStr "0xab") (JStr "BASE") 2%nat.

Lemma X_merge_rows_sound_witness :
  row_txHash (mkRow (js "0xab") (js "base") 1%nat) <> [] /\
  exists tx, In tx (concat [[merge_tx1]; [merge_tx2]]) /\
    process (fun n : nat => Some n) tx =
      Some (row_key (mkRow (js "0xab") (js "base") 1%nat), mkRow (js "0xab") (js "base") 1%nat).
Proof.
  apply (X_merge_rows_sound nat nat (fun n => Some n) [[merge_tx1]; [merge_tx2]]).
  vm_compute. left. reflexivity.
Defined.

Lemma X_merge_first_wins_witness :
  In (mkRow (js "0xab") (js "base") 1%nat)
     (merge_transactions (fun n : nat => Some n) [[merge_tx1]; [merge_tx2]]) /\
  forall r', In r' (merge_transactions (fun n : nat => Some n) [[merge_tx1]; [merge_tx2]]) ->
    row_key r' = js "base:0xab" -> r' = mkRow (js "0xab") (js "base") 1%nat.
Proof.
  apply (X_merge_first_wins nat nat (fun n => Some n) [[merge_tx1]; [merge_tx2]]
           [] merge_tx1 [merge_tx2]).
  - reflexivity.
  - vm_compute. reflexivity.
  - intros ? ? [].
Defined.
